(** * github_codeowners.writer: a shallow embedding and its verification

    The development follows [src/github_codeowners/writer.py]:
    [format_entry], [_validate_file_size], [write_codeowners] and
    [write_codeowners_file].  Python [str] values are lists of Unicode code
    points, [bytes] values are lists of octets, exceptions are an explicit
    error type, and the filesystem touched by [write_codeowners_file] is a
    finite map threaded through a small state-and-error monad.  The data
    model and the parser, which the writer's properties refer to, are
    modelled from the specification. *)

From Stdlib Require Import NArith Ascii String List Lia DecimalN.
From stdpp Require Import base option list gmap strings.

Local Open Scope N_scope.
Local Open Scope list_scope.

(** ** Python strings *)

(** A Python [str] is a sequence of code points (0 .. 0x10FFFF); a [bytes]
    value is a sequence of octets. *)
Abbreviation str := (list N) (only parsing).
Abbreviation bytes := (list N) (only parsing).

(** ASCII literals, written as Rocq strings. *)
Definition py (s : string) : str := map N_of_ascii (list_ascii_of_string s).

Definition NEWLINE : N := 10.
Definition SPACE : N := 32.
Definition HASH : N := 35.

(** [len(x)] as a Python integer. *)
Definition len {A} (l : list A) : N := N.of_nat (length l).

(** Truth value of a [str]: only the empty string is falsy. *)
Definition nonempty (s : str) : bool :=
  match s with
  | [] => false
  | _ :: _ => true
  end.

(** Truth value of an [Optional[str]]: [None] and the empty string are
    falsy. *)
Definition truthy (o : option str) : bool :=
  match o with
  | Some s => nonempty s
  | None => false
  end.

(** The string held by an [Optional[str]] that was tested truthy. *)
Definition the (o : option str) : str := default [] o.

(** [o or d]. *)
Definition py_or (o : option str) (d : str) : str :=
  if truthy o then the o else d.

(** [sep.join(parts)]. *)
Fixpoint join (sep : str) (parts : list str) : str :=
  match parts with
  | [] => []
  | x :: rest =>
      match rest with
      | [] => x
      | _ :: _ => x ++ sep ++ join sep rest
      end
  end.

(** ** UTF-8 *)

Definition is_surrogate (c : N) : bool := (0xD800 <=? c) && (c <=? 0xDFFF).

Definition continuation (c : N) (shift : N) : N :=
  N.lor 0x80 (N.land (N.shiftr c shift) 0x3F).

(** The encoding of one code point; lone surrogates cannot be encoded
    (Python raises [UnicodeEncodeError]). *)
Definition encode_codepoint (c : N) : option bytes :=
  if c <? 0x80 then Some [c]
  else if c <? 0x800 then
    Some [N.lor 0xC0 (N.shiftr c 6); continuation c 0]
  else if c <? 0x10000 then
    if is_surrogate c then None
    else Some [N.lor 0xE0 (N.shiftr c 12); continuation c 6; continuation c 0]
  else
    Some [N.lor 0xF0 (N.shiftr c 18); continuation c 12; continuation c 6;
          continuation c 0].

(** [s.encode('utf-8')]. *)
Fixpoint encode_utf8 (s : str) : option bytes :=
  match s with
  | [] => Some []
  | c :: s' =>
      match encode_codepoint c, encode_utf8 s' with
      | Some b, Some bs => Some (b ++ bs)
      | _, _ => None
      end
  end.

(** ** Exceptions and results *)

Inductive exception : Type :=
  | CodeOwnersFileSizeError (message : str)
  | UnicodeEncodeError
  | FileNotFoundError
  | FileExistsError
  | NotADirectoryError
  | IsADirectoryError.

Inductive result (A : Type) : Type :=
  | Return (a : A)
  | Raise (e : exception).
Arguments Return {A} a.
Arguments Raise {A} e.

Global Instance result_ret : MRet result := fun A a => Return a.

Global Instance result_bind : MBind result := fun A B k r =>
  match r with
  | Return a => k a
  | Raise e => Raise e
  end.

(** ** The data model *)

(** Modelled from the spec: [models.py] is not part of the sources at hand.
    A [CodeOwner] carries its raw string form; its classification tag is a
    function of that string and is not stored.  [str(owner)] is the raw
    string. *)
Record CodeOwner : Type := { name : str }.

Definition owner_str (owner : CodeOwner) : str := name owner.

(** Modelled from the spec: [EntryType] is the enumeration BLANK, COMMENT,
    RULE declared in [models.py]. *)
Inductive EntryType : Type := BLANK | COMMENT | RULE.

(** Modelled from the spec: one logical line, a single record covering the
    three variants, with nullable [pattern] and [comment]
    ([CodeOwnersEntry(type=..., pattern=None, owners=[])] in the tests). *)
Record CodeOwnersEntry : Type := {
  type : EntryType;
  pattern : option str;
  owners : list CodeOwner;
  comment : option str
}.

(** Modelled from the spec: the document, an ordered sequence of entries. *)
Record CodeOwnersFile : Type := { entries : list CodeOwnersEntry }.

(** Modelled from the spec: the construction helpers [CodeOwnersEntry.blank],
    [CodeOwnersEntry.comment] and [CodeOwnersEntry.rule]. *)
Definition entry_blank : CodeOwnersEntry :=
  {| type := BLANK; pattern := None; owners := []; comment := None |}.

Definition entry_comment (text : str) : CodeOwnersEntry :=
  {| type := COMMENT; pattern := None; owners := []; comment := Some text |}.

Definition entry_rule (pat : str) (os : list CodeOwner) (inline : option str)
  : CodeOwnersEntry :=
  {| type := RULE; pattern := Some pat; owners := os; comment := inline |}.

(** ** writer.py *)

(** GitHub's CODEOWNERS file size limit (3 MB). *)
Definition MAX_FILE_SIZE_BYTES : N := 3 * 1024 * 1024.

(** [format_entry]: the three [if entry.type == ...] blocks, each returning.
    The final [return ""] of the source is unreachable for a three-valued
    [EntryType]. *)
Definition format_entry (entry : CodeOwnersEntry) : str :=
  match type entry with
  | BLANK => []
  | COMMENT =>
      let comment_text := py_or (comment entry) [] in
      if nonempty comment_text then HASH :: SPACE :: comment_text
      else [HASH]
  | RULE =>
      if negb (truthy (pattern entry)) then []
      else
        let parts := [the (pattern entry)] in
        let parts :=
          fold_left (fun parts owner => parts ++ [owner_str owner])
                    (owners entry) parts in
        let parts :=
          if truthy (comment entry)
          then parts ++ [HASH :: SPACE :: the (comment entry)]
          else parts in
        join [SPACE] parts
  end.

(** The [.2f] rendering of [size_bytes / (1024 * 1024)].  Dividing an integer
    below 2^53 by 2^20 is exact in binary floating point, and [.2f] rounds
    the exact value to the nearest hundredth, ties to the even neighbour; so
    the number of hundredths is computed here on integers. *)
Definition size_mb_hundredths (size_bytes : N) : N :=
  let q := (size_bytes * 100) / (1024 * 1024) in
  let r := (size_bytes * 100) mod (1024 * 1024) in
  if 2 * r <? 1024 * 1024 then q
  else if 1024 * 1024 <? 2 * r then q + 1
  else if N.even q then q else q + 1.

Fixpoint uint_codes (d : Decimal.uint) : str :=
  match d with
  | Decimal.Nil => []
  | Decimal.D0 d => 48 :: uint_codes d
  | Decimal.D1 d => 49 :: uint_codes d
  | Decimal.D2 d => 50 :: uint_codes d
  | Decimal.D3 d => 51 :: uint_codes d
  | Decimal.D4 d => 52 :: uint_codes d
  | Decimal.D5 d => 53 :: uint_codes d
  | Decimal.D6 d => 54 :: uint_codes d
  | Decimal.D7 d => 55 :: uint_codes d
  | Decimal.D8 d => 56 :: uint_codes d
  | Decimal.D9 d => 57 :: uint_codes d
  end.

(** Decimal digits of a natural number, no leading zero. *)
Definition decimal (n : N) : str := uint_codes (N.to_uint n).

(** [f"{size_mb:.2f}"]. *)
Definition format_2f (hundredths : N) : str :=
  decimal (hundredths / 100) ++ py "." ++
  [48 + (hundredths mod 100) / 10; 48 + (hundredths mod 100) mod 10].

Definition size_message_head : str :=
  Eval vm_compute in py "CODEOWNERS file size (".

Definition size_message_tail : str :=
  Eval vm_compute in
    py " MB) exceeds GitHub's 3 MB limit. The file must be under 3 MB to be processed by GitHub.".

Definition size_message (size_bytes : N) : str :=
  size_message_head ++ format_2f (size_mb_hundredths size_bytes)
    ++ size_message_tail.

(** [_validate_file_size]. *)
Definition _validate_file_size (content : str) : result unit :=
  match encode_utf8 content with
  | None => Raise UnicodeEncodeError
  | Some encoded =>
      let size_bytes := len encoded in
      if MAX_FILE_SIZE_BYTES <? size_bytes
      then Raise (CodeOwnersFileSizeError (size_message size_bytes))
      else Return tt
  end.

(** The [lines] list built by the loop of [write_codeowners]. *)
Definition formatted_lines (codeowners_file : CodeOwnersFile) : list str :=
  fold_left (fun lines entry => lines ++ [format_entry entry])
            (entries codeowners_file) [].

(** [write_codeowners]. *)
Definition write_codeowners (codeowners_file : CodeOwnersFile)
    (validate_size : bool) : result str :=
  let lines := formatted_lines codeowners_file in
  let content := join [NEWLINE] lines in
  (if validate_size then _validate_file_size content else Return tt) ≫=
  fun _ => Return content.

(** ** The filesystem collaborator

    [write_codeowners_file] reaches storage through [pathlib]: [Path.parent],
    [Path.mkdir(parents=True, exist_ok=True)] and [Path.write_text].  The
    model below is that of a POSIX filesystem without permissions: a finite
    map from resolved paths to nodes.  A path is the list of its components,
    leaf first, so that [Path("/a/b/c")] is ["c"; "b"; "a"] and the root is
    the empty list. *)

Inductive node : Type :=
  | Directory
  | File (data : bytes).

Abbreviation path := (list string) (only parsing).
Abbreviation filesystem := (gmap (list string) node) (only parsing).

(** [Path.parent]; the root is its own parent. *)
Definition parent (p : path) : path := tail p.

(** What is found at a path; the root directory always exists. *)
Definition stat (p : path) (fs : filesystem) : option node :=
  match p with
  | [] => Some Directory
  | _ :: _ => fs !! p
  end.

Definition is_dir (p : path) (fs : filesystem) : bool :=
  match stat p fs with
  | Some Directory => true
  | _ => false
  end.

(** Computations that may raise and that act on the filesystem.  A raised
    exception keeps the filesystem as it was left at that point. *)
Definition io (A : Type) : Type := filesystem -> result A * filesystem.

Global Instance io_ret : MRet io := fun A a fs => (Return a, fs).

Global Instance io_bind : MBind io := fun A B k m fs =>
  match m fs with
  | (Return a, fs') => k a fs'
  | (Raise e, fs') => (Raise e, fs')
  end.

(** A pure computation, run without touching the filesystem. *)
Definition lift {A} (r : result A) : io A := fun fs => (r, fs).

(** [os.mkdir(p)]. *)
Definition os_mkdir (p : path) : io unit := fun fs =>
  match p with
  | [] => (Raise FileExistsError, fs)
  | _ :: _ =>
      match stat (parent p) fs with
      | None => (Raise FileNotFoundError, fs)
      | Some (File _) => (Raise NotADirectoryError, fs)
      | Some Directory =>
          match fs !! p with
          | Some _ => (Raise FileExistsError, fs)
          | None => (Return tt, <[p := Directory]> fs)
          end
      end
  end.

(** [Path.mkdir(parents=False, exist_ok=exist_ok)]: a missing parent is
    re-raised, any other [OSError] is swallowed when the path is a
    directory and [exist_ok] is set. *)
Definition mkdir (exist_ok : bool) (p : path) : io unit := fun fs =>
  match os_mkdir p fs with
  | (Return _, fs') => (Return tt, fs')
  | (Raise FileNotFoundError, fs') => (Raise FileNotFoundError, fs')
  | (Raise e, fs') =>
      if negb exist_ok || negb (is_dir p fs') then (Raise e, fs')
      else (Return tt, fs')
  end.

(** [Path.mkdir(parents=True, exist_ok=exist_ok)]: on a missing parent the
    parent chain is created first ([self.parent.mkdir(parents=True,
    exist_ok=True)]), then the directory itself. *)
Fixpoint mkdir_parents (exist_ok : bool) (p : path) : io unit := fun fs =>
  match os_mkdir p fs with
  | (Raise FileNotFoundError, fs') =>
      match p with
      | [] => (Raise FileNotFoundError, fs')
      | _ :: up => (mkdir_parents true up ;; mkdir exist_ok p) fs'
      end
  | _ => mkdir exist_ok p fs
  end.

(** What resolving [d] as a directory fails with, walking down from the
    root: the first component that is missing gives [FileNotFoundError]
    (ENOENT), the first that is a regular file gives [NotADirectoryError]
    (ENOTDIR); nothing when every component is a directory. *)
Fixpoint resolution_error (d : path) (fs : filesystem) : option exception :=
  match d with
  | [] => None
  | _ :: up =>
      match resolution_error up fs with
      | Some e => Some e
      | None =>
          match fs !! d with
          | None => Some FileNotFoundError
          | Some (File _) => Some NotADirectoryError
          | Some Directory => None
          end
      end
  end.

(** The error of [open] when the parent [d] of the file is not a
    directory. *)
Definition open_error (d : path) (fs : filesystem) : exception :=
  default FileNotFoundError (resolution_error d fs).

(** [Path.write_text(data, encoding="utf-8")]: the file is opened in mode
    ['w'] (created or truncated), then the encoded text is written, with no
    newline translation (POSIX).  When the parent is not a directory the
    error is that of resolving the path from the root.  Text that cannot be
    encoded raises after the file has been opened. *)
Definition write_text (p : path) (data : str) : io N := fun fs =>
  match p with
  | [] => (Raise IsADirectoryError, fs)
  | _ :: _ =>
      match stat (parent p) fs with
      | None => (Raise (open_error (parent p) fs), fs)
      | Some (File _) => (Raise (open_error (parent p) fs), fs)
      | Some Directory =>
          match fs !! p with
          | Some Directory => (Raise IsADirectoryError, fs)
          | _ =>
              let opened := <[p := File []]> fs in
              match encode_utf8 data with
              | None => (Raise UnicodeEncodeError, opened)
              | Some encoded => (Return (len data), <[p := File encoded]> opened)
              end
          end
      end
  end.

(** [write_codeowners_file], with [file_path] already a [Path]. *)
Definition write_codeowners_file (codeowners_file : CodeOwnersFile)
    (file_path : path) (create_dirs validate_size : bool) : io unit :=
  (if create_dirs then mkdir_parents true (parent file_path) else mret tt) ;;
  content ← lift (write_codeowners codeowners_file validate_size);
  write_text file_path content ;;
  mret tt.

(** ** Derived notions used in the statements *)

(** The text [write_codeowners] computes before it validates the size. *)
Definition content_of (f : CodeOwnersFile) : str :=
  join [NEWLINE] (map format_entry (entries f)).

(** [len(content.encode('utf-8'))], when the text can be encoded. *)
Definition byte_length (s : str) : option N := len <$> encode_utf8 s.


(** Occurrences of a code point in a text. *)
Fixpoint count (c : N) (s : str) : N :=
  match s with
  | [] => 0
  | d :: s' => (if d =? c then 1 else 0) + count c s'
  end.

(** Newline characters that the formatted entries carry themselves. *)
Definition embedded_newlines (f : CodeOwnersFile) : N :=
  foldr (fun e acc => count NEWLINE (format_entry e) + acc) 0 (entries f).

(** The four cases of [format_entry] as the specification words them: a
    pattern or an inline comment is "present" when the field holds a string,
    "null/absent" when it holds [None]. *)
Definition format_entry_reference (entry : CodeOwnersEntry) : str :=
  match type entry with
  | BLANK => []
  | COMMENT =>
      match comment entry with
      | Some (c :: body) => HASH :: SPACE :: c :: body
      | _ => [HASH]
      end
  | RULE =>
      match pattern entry with
      | None => []
      | Some pat =>
          join [SPACE]
            ([pat] ++ map owner_str (owners entry) ++
             match comment entry with
             | Some c => [HASH :: SPACE :: c]
             | None => []
             end)
      end
  end.

(** ASCII filler, and a one-comment document whose text is exactly [n]
    bytes long once encoded (for [n] at least 3): the line "# aaa...". *)
Definition filler (n : N) : str := replicate (N.to_nat n) 97.

Definition document_of_size (n : N) : CodeOwnersFile :=
  {| entries := [entry_comment (filler (n - 2))] |}.

(** ** Concrete inputs used by the examples *)

Definition owner (s : string) : CodeOwner := {| name := py s |}.

(** [CodeOwnersEntry(type=RULE, pattern="", owners=[@a])]. *)
Definition empty_pattern_rule : CodeOwnersEntry :=
  entry_rule [] [owner "@a"] None.

(** [CodeOwnersEntry.rule("*.py", [@a], inline_comment="")]. *)
Definition empty_comment_rule : CodeOwnersEntry :=
  entry_rule (py "*.py") [owner "@a"] (Some []).

(** The three-line document of the blank-line test. *)
Definition sample_document : CodeOwnersFile :=
  {| entries := [entry_rule (py "*.py") [owner "@python-team"] None;
                 entry_blank;
                 entry_rule (py "*.js") [owner "@js-team"] None] |}.

(** A single comment whose body spans two lines:
    [add_comment("a\nb")]. *)
Definition two_line_comment_document : CodeOwnersFile :=
  {| entries := [entry_comment (py "a" ++ [NEWLINE] ++ py "b")] |}.

(** The errors of the operating system, raised by [mkdir] and [open]. *)
Definition is_os_error (e : exception) : Prop :=
  match e with
  | FileNotFoundError | FileExistsError | NotADirectoryError
  | IsADirectoryError => True
  | _ => False
  end.

(** [fs'] is [fs] with, at most, new directories at [d] and above it:
    nothing that existed has changed, and no file has appeared. *)
Definition directories_added (d : path) (fs fs' : filesystem) : Prop :=
  forall q : path,
    fs' !! q = fs !! q \/
    (fs !! q = None /\ fs' !! q = Some Directory /\ q <> [] /\
     q `suffix_of` d).


(** [Path("/nested/CODEOWNERS")] and [Path("/CODEOWNERS")]. *)
Definition nested_path : path := ["CODEOWNERS"; "nested"]%string.
Definition top_path : path := ["CODEOWNERS"]%string.

(** A filesystem where [/CODEOWNERS] holds "old content". *)
Definition old_filesystem : filesystem :=
  {[ top_path := File (py "old content") ]}.

(** Reading decimal digits back: the number a digit string denotes. *)
Fixpoint codes_uint (s : str) : Decimal.uint :=
  match s with
  | [] => Decimal.Nil
  | c :: s' =>
      let d := codes_uint s' in
      match c - 48 with
      | 0 => Decimal.D0 d
      | 1 => Decimal.D1 d
      | 2 => Decimal.D2 d
      | 3 => Decimal.D3 d
      | 4 => Decimal.D4 d
      | 5 => Decimal.D5 d
      | 6 => Decimal.D6 d
      | 7 => Decimal.D7 d
      | 8 => Decimal.D8 d
      | _ => Decimal.D9 d
      end
  end.

Definition decimal_value (s : str) : N := N.of_uint (codes_uint s).

(** ** The parser

    [parser.py] is not part of the sources at hand; the definitions of this
    section follow section 4.1 of the specification. *)

(** Modelled from the spec: "whitespace", missing with [parser.py]; taken
    as the characters that Python's [str.split()] and [str.rstrip()] treat
    as whitespace. *)
Definition is_space (c : N) : bool :=
  (9 <=? c) && (c <=? 13) || (0x1C <=? c) && (c <=? 0x20)
  || (c =? 0x85) || (c =? 0xA0) || (c =? 0x1680)
  || (0x2000 <=? c) && (c <=? 0x200A)
  || (c =? 0x2028) || (c =? 0x2029) || (c =? 0x202F) || (c =? 0x205F)
  || (c =? 0x3000).

(** Modelled from the spec: "Splits input into lines", the first step of
    the absent [parse_codeowners]; the text is cut at every newline. *)
Fixpoint split_lines (text : str) : list str :=
  match text with
  | [] => [[]]
  | c :: rest =>
      if c =? NEWLINE then [] :: split_lines rest
      else
        match split_lines rest with
        | line :: lines => (c :: line) :: lines
        | [] => [[c]]
        end
  end.

(** Modelled from the spec: "trims trailing whitespace only", a step of the
    absent [parse_codeowners]. *)
Fixpoint rstrip (s : str) : str :=
  match s with
  | [] => []
  | c :: rest =>
      match rstrip rest with
      | [] => if is_space c then [] else [c]
      | d :: kept => c :: d :: kept
      end
  end.

(** Modelled from the spec: what follows the leading whitespace, used for
    "Line whose first non-whitespace character is #" in the absent
    [parse_codeowners]. *)
Fixpoint lstrip (s : str) : str :=
  match s with
  | [] => []
  | c :: rest => if is_space c then lstrip rest else s
  end.

(** Modelled from the spec: tokens are the non-empty runs between
    whitespace; a run is kept only when it is not empty. *)
Definition push (w : str) (ws : list str) : list str :=
  match w with
  | [] => ws
  | _ :: _ => w :: ws
  end.

(** Modelled from the spec: "split on runs of whitespace into tokens", a
    step of the absent [parse_codeowners].  [split_go s] is the token that
    starts at the head of [s] (empty when [s] starts with whitespace) and
    the tokens after it. *)
Fixpoint split_go (s : str) : str * list str :=
  match s with
  | [] => ([], [])
  | c :: rest =>
      let '(w, ws) := split_go rest in
      if is_space c then ([], push w ws) else (c :: w, ws)
  end.

(** Modelled from the spec: the tokens of a line, "whitespace-run-delimited,
    not single-space-delimited". *)
Definition split_ws (s : str) : list str :=
  let '(w, ws) := split_go s in push w ws.

(** Modelled from the spec: "token starting with #", the comment marker of
    the absent [parse_codeowners]. *)
Definition starts_with_hash (t : str) : bool :=
  match t with
  | c :: _ => c =? HASH
  | [] => false
  end.

(** Modelled from the spec: "one optional following space", "one leading
    space after # stripped if present", in the absent [parse_codeowners]. *)
Definition drop_space (s : str) : str :=
  match s with
  | c :: rest => if c =? SPACE then rest else s
  | [] => []
  end.

(** Modelled from the spec: [CodeOwner.from_string], of the absent
    [models.py]; the owner keeps the token as its raw string form. *)
Definition from_string (token : str) : CodeOwner := {| name := token |}.

(** Modelled from the spec: "Scan remaining tokens left-to-right; every
    token starting with # marks the beginning of the trailing comment ...
    and token scanning for owners stops", in the absent [parse_codeowners]:
    the owner tokens, and the tokens from the comment marker on. *)
Fixpoint scan_tokens (tokens : list str) : list str * list str :=
  match tokens with
  | [] => ([], [])
  | t :: rest =>
      if starts_with_hash t then ([], tokens)
      else let '(os, cs) := scan_tokens rest in (t :: os, cs)
  end.

(** Modelled from the spec: the trailing comment of the absent
    [parse_codeowners], "all tokens from that point (rejoined with single
    spaces, leading # stripped, one leading space after # stripped if
    present)"; absent when there is no comment marker. *)
Definition inline_comment (comment_tokens : list str) : option str :=
  match comment_tokens with
  | [] => None
  | _ :: _ => Some (drop_space (tail (join [SPACE] comment_tokens)))
  end.

(** Modelled from the spec: one line of the absent [parse_codeowners],
    after its trailing whitespace was trimmed: an empty line is a BLANK
    entry, a line whose first non-whitespace character is # is a COMMENT
    entry whose body is everything after the # and one optional space, any
    other line is a RULE entry read from its tokens. *)
Definition parse_trimmed (line : str) : CodeOwnersEntry :=
  if negb (nonempty line) then entry_blank
  else
    match lstrip line with
    | [] => entry_blank
    | c :: body =>
        if c =? HASH then entry_comment (drop_space body)
        else
          match split_ws line with
          | [] => entry_blank
          | pat :: tokens =>
              let '(owner_tokens, comment_tokens) := scan_tokens tokens in
              entry_rule pat (map from_string owner_tokens)
                (inline_comment comment_tokens)
          end
    end.

(** Modelled from the spec: one line of the absent [parse_codeowners],
    "For each line, trims trailing whitespace only". *)
Definition parse_line (line : str) : CodeOwnersEntry :=
  parse_trimmed (rstrip line).

(** Modelled from the spec: [parse_codeowners(text)] of the absent
    [parser.py], one line to one entry. *)
Definition parse_codeowners (text : str) : CodeOwnersFile :=
  {| entries := map parse_line (split_lines text) |}.

(** An empty inline comment read as no comment. *)
Definition absent_if_empty (o : option str) : option str :=
  if truthy o then o else None.

Definition normalise_entry (e : CodeOwnersEntry) : CodeOwnersEntry :=
  match type e with
  | RULE =>
      {| type := RULE; pattern := pattern e; owners := owners e;
         comment := absent_if_empty (comment e) |}
  | _ => e
  end.

(** A token: a non-empty run of characters none of which is whitespace. *)
Definition token (t : str) : Prop :=
  t <> [] /\ Forall (fun c => is_space c = false) t.

(** What [parse_trimmed] can produce from a trimmed line: a blank entry, a
    comment whose body is the end of the line, or a rule spelled by a
    pattern token, owner tokens and the words of its inline comment. *)
Inductive parsed (line : str) : CodeOwnersEntry -> Prop :=
  | parsed_blank : parsed line entry_blank
  | parsed_comment (body : str) :
      body `suffix_of` line ->
      parsed line (entry_comment body)
  | parsed_rule (pat : str) (os words : list str) (cm : option str) :
      token pat -> starts_with_hash pat = false ->
      Forall token os ->
      Forall (fun t => starts_with_hash t = false) os ->
      Forall token words ->
      (cm = None /\ words = [] \/ cm = Some (join [SPACE] words)) ->
      parsed line (entry_rule pat (map from_string os) cm).

Definition no_newline (s : str) : Prop := Forall (fun c => c <> NEWLINE) s.

(** ** Further notions, for the properties beyond the claims *)

(** The text holds a lone surrogate, which UTF-8 cannot encode. *)
Definition has_surrogate (s : str) : bool := existsb is_surrogate s.

(** A document given by its entries. *)
Definition document (es : list CodeOwnersEntry) : CodeOwnersFile :=
  {| entries := es |}.

(** A document whose only line holds a lone surrogate. *)
Definition surrogate_document : CodeOwnersFile :=
  document [entry_comment [0xD800]].

(** A filesystem is a tree: whatever exists lies in a directory. *)
Definition well_formed (fs : filesystem) : Prop :=
  forall (c : string) (d : path),
    is_Some (fs !! (c :: d)) -> stat d fs = Some Directory.

(** A filesystem where [/f] is a regular file, and the target
    [/f/a/CODEOWNERS] below it. *)
Definition file_in_the_way : filesystem := {[ ["f"%string] := File [] ]}.
Definition path_below_file : path := ["CODEOWNERS"; "a"; "f"]%string.
(** ** First facts about the writer *)

Lemma fold_left_snoc {A B} (f : A -> B) (l : list A) (acc : list B) :
  fold_left (fun acc x => acc ++ [f x]) l acc = acc ++ map f l.
Proof.
  revert acc. induction l as [|x l IH]; intros acc; simpl.
  - by rewrite app_nil_r.
  - by rewrite IH, <- app_assoc.
Qed.

(** The loop of [write_codeowners] formats the entries in document order. *)
Lemma formatted_lines_map (f : CodeOwnersFile) :
  formatted_lines f = map format_entry (entries f).
Proof. unfold formatted_lines. by rewrite fold_left_snoc. Qed.

Lemma write_codeowners_unvalidated (f : CodeOwnersFile) :
  write_codeowners f false = Return (content_of f).
Proof. unfold write_codeowners, content_of. by rewrite formatted_lines_map. Qed.

Lemma write_codeowners_validated (f : CodeOwnersFile) :
  write_codeowners f true =
    match byte_length (content_of f) with
    | None => Raise UnicodeEncodeError
    | Some n =>
        if MAX_FILE_SIZE_BYTES <? n
        then Raise (CodeOwnersFileSizeError (size_message n))
        else Return (content_of f)
    end.
Proof.
  unfold write_codeowners, content_of, byte_length, _validate_file_size.
  rewrite formatted_lines_map.
  destruct (encode_utf8 _) as [encoded|]; simpl; [|done].
  by destruct (_ <? _).
Qed.

Lemma write_codeowners_returns (f : CodeOwnersFile) (v : bool) (c : str) :
  write_codeowners f v = Return c -> c = content_of f.
Proof.
  destruct v.
  - rewrite write_codeowners_validated.
    destruct (byte_length _) as [n|]; [|done].
    destruct (_ <? _); congruence.
  - rewrite write_codeowners_unvalidated. congruence.
Qed.

(** ** Encoded size of ASCII text *)

Lemma encode_utf8_ascii (s : str) :
  Forall (fun c => c < 128) s -> encode_utf8 s = Some s.
Proof.
  induction 1 as [|c s Hc _ IH]; [done|].
  simpl. rewrite IH. unfold encode_codepoint.
  destruct (N.ltb_spec c 128); [done | lia].
Qed.

Lemma byte_length_ascii (s : str) :
  Forall (fun c => c < 128) s -> byte_length s = Some (len s).
Proof. intros H. unfold byte_length. by rewrite encode_utf8_ascii. Qed.

Lemma filler_ascii (n : N) : Forall (fun c => c < 128) (filler n).
Proof. unfold filler. apply Forall_replicate. lia. Qed.

Lemma len_filler (n : N) : len (filler n) = n.
Proof. unfold len, filler. rewrite length_replicate. lia. Qed.

Lemma filler_succ (n : N) : filler (N.succ n) = 97 :: filler n.
Proof. unfold filler. by rewrite N2Nat.inj_succ. Qed.

Lemma content_document_of_size (n : N) :
  3 <= n -> content_of (document_of_size n) = HASH :: SPACE :: filler (n - 2).
Proof.
  intros Hn. unfold content_of, document_of_size.
  replace (n - 2) with (N.succ (n - 3)) by lia.
  rewrite filler_succ. reflexivity.
Qed.

Lemma byte_length_document_of_size (n : N) :
  3 <= n -> byte_length (content_of (document_of_size n)) = Some n.
Proof.
  intros Hn. rewrite content_document_of_size by done.
  rewrite byte_length_ascii.
  - f_equal. unfold len. simpl length.
    rewrite !Nat2N.inj_succ. fold (len (filler (n - 2))).
    rewrite len_filler. lia.
  - constructor; [unfold HASH; lia|].
    constructor; [unfold SPACE; lia|]. apply filler_ascii.
Qed.

(** ** C1: the size ceiling *)

(** C1. [write_codeowners f validate_size] raises [CodeOwnersFileSizeError]
    if and only if [validate_size] is true and the UTF-8 byte length of the
    newline-joined formatted output exceeds 3,145,728 bytes.  Output of
    exactly 3,145,728 bytes does not raise, one byte over raises, without
    validation nothing is raised whatever the size, and whenever no error is
    raised the joined text is what is returned. *)
Theorem write_codeowners_size_ceiling (f : CodeOwnersFile) (validate_size : bool) :
  MAX_FILE_SIZE_BYTES = 3145728 /\
  ((exists message,
      write_codeowners f validate_size = Raise (CodeOwnersFileSizeError message))
   <-> validate_size = true /\
       exists n, byte_length (content_of f) = Some n /\ 3145728 < n) /\
  (byte_length (content_of f) = Some 3145728 ->
     write_codeowners f true = Return (content_of f)) /\
  (byte_length (content_of f) = Some 3145729 ->
     exists message,
       write_codeowners f true = Raise (CodeOwnersFileSizeError message)) /\
  write_codeowners f false = Return (content_of f) /\
  ((forall e, write_codeowners f validate_size <> Raise e) ->
     write_codeowners f validate_size = Return (content_of f)).
Proof.
  split; [done|].
  split; [|split; [|split; [|split]]].
  - destruct validate_size.
    + rewrite write_codeowners_validated. split.
      * intros [message H]. split; [done|].
        destruct (byte_length _) as [n|]; [|done].
        exists n. split; [done|].
        destruct (N.ltb_spec MAX_FILE_SIZE_BYTES n) as [Hlt|]; [|done].
        exact Hlt.
      * intros [_ (n & -> & Hn)].
        exists (size_message n).
        destruct (N.ltb_spec MAX_FILE_SIZE_BYTES n) as [|Hle]; [done|].
        change MAX_FILE_SIZE_BYTES with 3145728 in Hle. lia.
    + rewrite write_codeowners_unvalidated. split.
      * intros [? ?]. discriminate.
      * intros [? _]. discriminate.
  - intros H. rewrite write_codeowners_validated, H. done.
  - intros H. rewrite write_codeowners_validated, H. eauto.
  - apply write_codeowners_unvalidated.
  - intros H. destruct (write_codeowners f validate_size) as [c|e] eqn:E.
    + f_equal. by eapply write_codeowners_returns.
    + by destruct (H e).
Qed.

(** The boundary of C1 on concrete documents: a document of exactly
    3,145,728 encoded bytes is returned, a document of 3,145,729 bytes
    raises, and the latter is returned when validation is off. *)
Lemma write_codeowners_size_ceiling_witness :
  write_codeowners (document_of_size 3145728) true
    = Return (content_of (document_of_size 3145728)) /\
  (exists message,
     write_codeowners (document_of_size 3145729) true
       = Raise (CodeOwnersFileSizeError message)) /\
  write_codeowners (document_of_size 3145729) false
    = Return (content_of (document_of_size 3145729)).
Proof.
  split; [|split].
  - destruct (write_codeowners_size_ceiling (document_of_size 3145728) true)
      as (_ & _ & Hat & _).
    apply Hat, byte_length_document_of_size. lia.
  - destruct (write_codeowners_size_ceiling (document_of_size 3145729) true)
      as (_ & _ & _ & Hover & _).
    apply Hover, byte_length_document_of_size. lia.
  - destruct (write_codeowners_size_ceiling (document_of_size 3145729) false)
      as (_ & _ & _ & _ & Hoff & _).
    exact Hoff.
Defined.

(** ** C4 and C10: [format_entry] case by case *)

Lemma parts_with_owners (pat : str) (os : list CodeOwner) :
  fold_left (fun parts o => parts ++ [owner_str o]) os [pat]
  = pat :: map owner_str os.
Proof. by rewrite fold_left_snoc. Qed.

Lemma format_entry_rule_nonempty (c : N) (pat : str) (os : list CodeOwner)
    (cm : option str) :
  format_entry (entry_rule (c :: pat) os cm)
  = join [SPACE]
      ((c :: pat) :: map owner_str os ++
       if truthy cm then [HASH :: SPACE :: the cm] else []).
Proof.
  unfold format_entry; simpl. rewrite parts_with_owners.
  destruct (truthy cm); [done|]. by rewrite app_nil_r.
Qed.

(** C4 (as amended). [format_entry] is a total function with these cases:
    BLANK gives the empty string; COMMENT gives "# " and the body when the
    body is non-empty, the bare "#" otherwise; a RULE whose pattern is
    null or the empty string gives the empty string; a RULE with a non-empty
    pattern gives the pattern, then each owner's string form in order, then
    "# " and the comment when the inline comment is present and non-empty,
    all joined by single spaces.  It agrees with the four cases as the
    specification words them on every entry whose pattern and inline
    comment are not the empty string. *)
Theorem format_entry_cases (e : CodeOwnersEntry) :
  format_entry e =
    match type e with
    | BLANK => []
    | COMMENT =>
        match comment e with
        | Some (c :: body) => HASH :: SPACE :: c :: body
        | _ => [HASH]
        end
    | RULE =>
        match pattern e with
        | Some (c :: pat) =>
            join [SPACE]
              ((c :: pat) :: map owner_str (owners e) ++
               match comment e with
               | Some (d :: cm) => [HASH :: SPACE :: d :: cm]
               | _ => []
               end)
        | _ => []
        end
    end
  /\ (pattern e <> Some [] -> comment e <> Some [] ->
      format_entry e = format_entry_reference e).
Proof.
  destruct e as [t p os cm]. split.
  - destruct t; simpl; [done | | ].
    + unfold format_entry; simpl. by destruct cm as [[|c body]|].
    + destruct p as [[|c pat]|]; [done | | done].
      rewrite (format_entry_rule_nonempty c pat os cm
               : format_entry (Build_CodeOwnersEntry _ _ _ _) = _).
      by destruct cm as [[|d cm]|].
  - simpl. intros Hp Hc. destruct t; [done | | ].
    + unfold format_entry, format_entry_reference; simpl.
      by destruct cm as [[|c body]|].
    + destruct p as [[|c pat]|]; [done | | done].
      rewrite (format_entry_rule_nonempty c pat os cm
               : format_entry (Build_CodeOwnersEntry _ _ _ _) = _).
      unfold format_entry_reference; simpl.
      by destruct cm as [[|d cm]|].
Qed.

Lemma format_entry_cases_witness :
  format_entry (entry_rule (py "*.html") [owner "@frontend-team"]
                  (Some (py "Web pages")))
  = format_entry_reference
      (entry_rule (py "*.html") [owner "@frontend-team"]
         (Some (py "Web pages"))).
Proof.
  apply (format_entry_cases
           (entry_rule (py "*.html") [owner "@frontend-team"]
              (Some (py "Web pages")))); simpl; discriminate.
Defined.

(** C4 as stated fails where a field holds the empty string: a RULE whose
    pattern is "" formats to the empty string, not to the space-joined
    pattern and owners, and an inline comment "" is left out, not written
    as "# ". *)
Lemma format_entry_reference_counterexample :
  format_entry empty_pattern_rule = [] /\
  format_entry_reference empty_pattern_rule = py " @a" /\
  format_entry empty_comment_rule = py "*.py @a" /\
  format_entry_reference empty_comment_rule = py "*.py @a # " /\
  ~ (forall e, format_entry e = format_entry_reference e).
Proof.
  repeat split; try reflexivity.
  intros H. specialize (H empty_pattern_rule). discriminate H.
Qed.

(** C10. [format_entry] treats empty strings like absent values: a RULE
    whose pattern is the empty string formats to the empty string, exactly
    like a RULE without pattern; a RULE with a non-empty pattern whose
    inline comment is the empty string formats to the space-joined pattern
    and owners with no "#" part, exactly like the same rule without
    comment. *)
Theorem format_entry_empty_strings (pat : str) (os : list CodeOwner)
    (cm : option str) :
  format_entry {| type := RULE; pattern := Some []; owners := os;
                  comment := cm |} = [] /\
  format_entry {| type := RULE; pattern := Some []; owners := os;
                  comment := cm |}
  = format_entry {| type := RULE; pattern := None; owners := os;
                    comment := cm |} /\
  (pat <> [] ->
   format_entry (entry_rule pat os (Some []))
   = format_entry (entry_rule pat os None) /\
   format_entry (entry_rule pat os (Some []))
   = join [SPACE] (pat :: map owner_str os)).
Proof.
  split; [done|]. split; [done|].
  intros Hpat. destruct pat as [|c pat]; [done|].
  rewrite !format_entry_rule_nonempty. simpl. by rewrite app_nil_r.
Qed.

Lemma format_entry_empty_strings_witness :
  format_entry (entry_rule (py "*.py") [owner "@a"] (Some []))
  = format_entry (entry_rule (py "*.py") [owner "@a"] None) /\
  format_entry (entry_rule (py "*.py") [owner "@a"] (Some []))
  = py "*.py @a".
Proof.
  apply (format_entry_empty_strings (py "*.py") [owner "@a"] None).
  discriminate.
Defined.

(** ** C5 and C9: the joined text *)

Lemma count_app (c : N) (s t : str) :
  count c (s ++ t) = count c s + count c t.
Proof. induction s as [|d s IH]; simpl; [done|]. rewrite IH. lia. Qed.

Lemma count_join_newline (lines : list str) :
  lines <> [] ->
  count NEWLINE (join [NEWLINE] lines) + 1
  = len lines + foldr (fun l acc => count NEWLINE l + acc) 0 lines.
Proof.
  induction lines as [|l [|l' rest] IH]; intros Hne; [done| |].
  - unfold len; simpl. lia.
  - change (join [NEWLINE] (l :: l' :: rest))
      with (l ++ [NEWLINE] ++ join [NEWLINE] (l' :: rest)).
    rewrite !count_app.
    change (foldr _ 0 (l :: l' :: rest))
      with (count NEWLINE l
            + foldr (fun l acc => count NEWLINE l + acc) 0 (l' :: rest)).
    assert (len (l :: l' :: rest) = 1 + len (l' :: rest)) as ->
      by (unfold len; simpl length; lia).
    specialize (IH ltac:(done)).
    change (count NEWLINE [NEWLINE]) with 1. lia.
Qed.

Lemma embedded_newlines_lines (f : CodeOwnersFile) :
  embedded_newlines f
  = foldr (fun l acc => count NEWLINE l + acc) 0
      (map format_entry (entries f)).
Proof.
  unfold embedded_newlines. induction (entries f) as [|e es IH]; [done|].
  simpl. by rewrite IH.
Qed.

(** C5 (as amended). [write_codeowners] formats every entry in document
    order with [format_entry] and joins the lines with single newline
    separators, adding no trailing newline: whatever it returns is that
    joined text, and without validation it always returns it.  A document
    with n >= 1 entries has exactly n-1 newline characters besides those
    that its formatted entries contain themselves, hence exactly n-1 when no
    formatted entry contains a newline.  The empty document gives the empty
    string. *)
Theorem write_codeowners_joins_lines (f : CodeOwnersFile) (validate_size : bool) :
  (forall c, write_codeowners f validate_size = Return c ->
     c = join [NEWLINE] (map format_entry (entries f))) /\
  write_codeowners f false
    = Return (join [NEWLINE] (map format_entry (entries f))) /\
  (entries f <> [] ->
     count NEWLINE (content_of f)
     = len (entries f) - 1 + embedded_newlines f) /\
  (entries f <> [] -> embedded_newlines f = 0 ->
     count NEWLINE (content_of f) = len (entries f) - 1) /\
  write_codeowners {| entries := [] |} validate_size = Return [].
Proof.
  assert (entries f <> [] ->
          count NEWLINE (content_of f)
          = len (entries f) - 1 + embedded_newlines f) as Hcount.
  { intros Hne. rewrite embedded_newlines_lines.
    pose proof (count_join_newline (map format_entry (entries f))) as H.
    unfold content_of.
    assert (len (map format_entry (entries f)) = len (entries f)) as Hlen
      by (unfold len; by rewrite length_map).
    rewrite Hlen in H.
    assert (0 < len (entries f))
      by (unfold len; destruct (entries f); [done | simpl; lia]).
    specialize (H ltac:(by destruct (entries f))). lia. }
  split; [|split; [|split; [|split]]].
  - apply write_codeowners_returns.
  - apply write_codeowners_unvalidated.
  - exact Hcount.
  - intros Hne H0. rewrite Hcount, H0 by done. lia.
  - by destruct validate_size.
Qed.

Lemma write_codeowners_joins_lines_witness :
  write_codeowners sample_document true
    = Return (py "*.py @python-team" ++ [NEWLINE] ++ [NEWLINE]
              ++ py "*.js @js-team") /\
  count NEWLINE (content_of sample_document) = 2.
Proof.
  destruct (write_codeowners_joins_lines sample_document true)
    as (_ & _ & _ & Hcount & _).
  split; [reflexivity|].
  apply Hcount; [discriminate | reflexivity].
Defined.

(** C5 as stated fails on an entry whose text carries a newline of its own:
    the one-entry document [add_comment("a\nb")] is written with one
    newline character, not zero. *)
Lemma newline_count_counterexample :
  write_codeowners two_line_comment_document true
    = Return (py "# a" ++ [NEWLINE] ++ py "b") /\
  len (entries two_line_comment_document) = 1 /\
  count NEWLINE (content_of two_line_comment_document) = 1 /\
  count NEWLINE (content_of two_line_comment_document)
    <> len (entries two_line_comment_document) - 1.
Proof. repeat split; try reflexivity. discriminate. Qed.



(** ** The filesystem: what [mkdir] can change *)

Lemma directories_added_refl (d : path) (fs : filesystem) :
  directories_added d fs fs.
Proof. intros q. by left. Qed.

Lemma directories_added_trans (d : path) (fs1 fs2 fs3 : filesystem) :
  directories_added d fs1 fs2 -> directories_added d fs2 fs3 ->
  directories_added d fs1 fs3.
Proof.
  intros H12 H23 q.
  destruct (H12 q) as [E12|(N1 & D2 & S)], (H23 q) as [E23|(N2 & D3 & S')].
  - left. congruence.
  - right. rewrite <- E12. done.
  - right. rewrite E23. done.
  - congruence.
Qed.

Lemma directories_added_mono (d d' : path) (fs fs' : filesystem) :
  d `suffix_of` d' -> directories_added d fs fs' -> directories_added d' fs fs'.
Proof.
  intros Hd H q. destruct (H q) as [E|(N & D & R & S)]; [by left|].
  right. repeat split; [done..|]. by etrans.
Qed.

Lemma directories_added_insert (p : path) (fs : filesystem) :
  p <> [] -> fs !! p = None ->
  directories_added p fs (<[p := Directory]> fs).
Proof.
  intros Hroot Hp q. destruct (decide (p = q)) as [->|Hne].
  - right. by rewrite lookup_insert_eq.
  - left. by rewrite lookup_insert_ne.
Qed.

Lemma os_mkdir_effect (p : path) (fs : filesystem) :
  (exists e, os_mkdir p fs = (Raise e, fs) /\ is_os_error e) \/
  (os_mkdir p fs = (Return tt, <[p := Directory]> fs) /\ fs !! p = None /\
   p <> []).
Proof.
  unfold os_mkdir. destruct p as [|c up]; [left; by eexists|].
  destruct (stat _ fs) as [[|data]|]; [|left; by eexists..].
  destruct (fs !! (c :: up)) eqn:E; [left; by eexists|by right].
Qed.

Lemma mkdir_effect (exist_ok : bool) (p : path) (fs : filesystem)
    (r : result unit) (fs' : filesystem) :
  mkdir exist_ok p fs = (r, fs') ->
  directories_added p fs fs' /\
  match r with Return _ => True | Raise e => is_os_error e end.
Proof.
  unfold mkdir.
  destruct (os_mkdir_effect p fs) as [(e & -> & He)|(-> & Hnone & Hroot)].
  - destruct e; try done;
      try (destruct (_ || _); intros [= <- <-]);
      try (intros [= <- <-]);
      split; try done; apply directories_added_refl.
  - intros [= <- <-]. split; [|done]. by apply directories_added_insert.
Qed.

Lemma mkdir_parents_effect (exist_ok : bool) (p : path) (fs : filesystem)
    (r : result unit) (fs' : filesystem) :
  mkdir_parents exist_ok p fs = (r, fs') ->
  directories_added p fs fs' /\
  match r with Return _ => True | Raise e => is_os_error e end.
Proof.
  revert exist_ok fs r fs'.
  induction p as [|c up IH]; intros exist_ok fs r fs'.
  - intros H. by apply (mkdir_effect exist_ok [] fs).
  - cbn [mkdir_parents].
    destruct (os_mkdir_effect (c :: up) fs) as [(e & E & He)|(E & Hnone & _)];
      rewrite E.
    + destruct e; try done; try apply mkdir_effect.
      unfold mbind, io_bind.
      destruct (mkdir_parents true up fs) as [[[]|e1] fs1] eqn:E1.
      * intros Hm. apply IH in E1 as [H1 _].
        apply mkdir_effect in Hm as [H2 Hr]. split; [|done].
        eapply directories_added_trans; [|exact H2].
        eapply directories_added_mono; [|exact H1]. by apply suffix_cons_r.
      * intros [= <- <-]. apply IH in E1 as [H1 He1]. split; [|done].
        eapply directories_added_mono; [|exact H1]. by apply suffix_cons_r.
    + apply mkdir_effect.
Qed.

(** A path is never at or above its own parent, the root apart. *)
Lemma not_suffix_of_parent (c : string) (up : path) :
  ~ (c :: up) `suffix_of` parent (c :: up).
Proof. intros H%suffix_length. simpl in H. lia. Qed.

(** [write_codeowners_file], step by step. *)
Lemma write_codeowners_file_steps (f : CodeOwnersFile) (p : path)
    (create_dirs validate_size : bool) (fs : filesystem) :
  write_codeowners_file f p create_dirs validate_size fs =
    match (if create_dirs then mkdir_parents true (parent p) fs
           else (Return tt, fs)) with
    | (Raise e, fs1) => (Raise e, fs1)
    | (Return _, fs1) =>
        match write_codeowners f validate_size with
        | Raise e => (Raise e, fs1)
        | Return content =>
            match write_text p content fs1 with
            | (Raise e, fs2) => (Raise e, fs2)
            | (Return _, fs2) => (Return tt, fs2)
            end
        end
    end.
Proof.
  unfold write_codeowners_file, mbind, io_bind, lift.
  destruct create_dirs; unfold mret, io_ret.
  - destruct (mkdir_parents _ _ _) as [[[]|e] fs1]; [|done].
    destruct (write_codeowners _ _); [|done].
    by destruct (write_text _ _ _) as [[|] ?].
  - destruct (write_codeowners _ _); [|done].
    by destruct (write_text _ _ _) as [[|] ?].
Qed.

Lemma resolution_error_os (d : path) (fs : filesystem) (e : exception) :
  resolution_error d fs = Some e -> is_os_error e.
Proof.
  induction d as [|c up IH]; simpl; [done|].
  destruct (resolution_error up fs) as [e'|]; [intros [= <-]; by apply IH|].
  destruct (fs !! (c :: up)) as [[|?]|]; [done|by intros [= <-]..].
Qed.

Lemma open_error_os (d : path) (fs : filesystem) : is_os_error (open_error d fs).
Proof.
  unfold open_error.
  destruct (resolution_error d fs) as [e|] eqn:E; [|done].
  by apply (resolution_error_os d fs).
Qed.

Lemma write_text_effect (p : path) (data : str) (fs : filesystem)
    (r : result N) (fs' : filesystem) :
  write_text p data fs = (r, fs') ->
  match r with
  | Return _ =>
      exists encoded, encode_utf8 data = Some encoded /\
        fs' = <[p := File encoded]> (<[p := File []]> fs)
  | Raise UnicodeEncodeError => True
  | Raise e => is_os_error e /\ fs' = fs
  end.
Proof.
  unfold write_text. destruct p as [|c up]; [by intros [= <- <-]|].
  pose proof (open_error_os (parent (c :: up)) fs) as Hos.
  destruct (stat _ fs) as [[|?]|];
    [|intros [= <- <-]; by destruct (open_error _ _)..].
  destruct (fs !! (c :: up)) as [[|?]|];
    [by intros [= <- <-]| |];
    (destruct (encode_utf8 data) as [encoded|]; intros [= <- <-];
     [by exists encoded | done]).
Qed.



Lemma directories_added_target (p : path) (fs fs' : filesystem) :
  directories_added (parent p) fs fs' -> fs' !! p = fs !! p.
Proof.
  intros H. destruct (H p) as [E|(_ & _ & Hroot & Hsuf)]; [done|].
  destruct p as [|c up]; [done|]. by apply not_suffix_of_parent in Hsuf.
Qed.

Lemma create_dirs_effect (create_dirs : bool) (p : path) (fs : filesystem)
    (r : result unit) (fs1 : filesystem) :
  (if create_dirs then mkdir_parents true (parent p) fs else (Return tt, fs))
    = (r, fs1) ->
  directories_added (parent p) fs fs1 /\
  (create_dirs = false -> fs1 = fs) /\
  match r with Return _ => True | Raise e => is_os_error e end.
Proof.
  destruct create_dirs.
  - intros H. apply mkdir_parents_effect in H as [Hadd Hr]. done.
  - intros [= <- <-]. split; [apply directories_added_refl | done].
Qed.

(** A size error of [write_codeowners_file] is the one [write_codeowners]
    raised, and it leaves the filesystem as the directory creation left
    it. *)
Lemma size_error_origin (f : CodeOwnersFile) (p : path)
    (create_dirs validate_size : bool) (fs fs' : filesystem) (message : str) :
  write_codeowners_file f p create_dirs validate_size fs
    = (Raise (CodeOwnersFileSizeError message), fs') ->
  write_codeowners f validate_size = Raise (CodeOwnersFileSizeError message) /\
  directories_added (parent p) fs fs' /\
  (create_dirs = false -> fs' = fs).
Proof.
  rewrite write_codeowners_file_steps.
  destruct (if create_dirs then _ else _) as [[[]|e] fs1] eqn:Edirs;
    apply create_dirs_effect in Edirs as (Hadd & Hsame & He).
  - destruct (write_codeowners f validate_size) as [content|e] eqn:Ew.
    + destruct (write_text p content fs1) as [[n|e] fs2] eqn:Et;
        [discriminate|].
      intros [= -> <-]. apply write_text_effect in Et. by destruct Et.
    + by intros [= -> <-].
  - intros [= -> <-]. done.
Qed.

Lemma write_codeowners_oversized_document (n : N) :
  3145728 < n ->
  write_codeowners (document_of_size n) true
  = Raise (CodeOwnersFileSizeError (size_message n)).
Proof.
  intros Hn.
  rewrite write_codeowners_validated, byte_length_document_of_size by lia.
  destruct (N.ltb_spec MAX_FILE_SIZE_BYTES n) as [|Hle]; [done|].
  change MAX_FILE_SIZE_BYTES with 3145728 in Hle. lia.
Qed.

(** ** C2, C6 and C7: [write_codeowners_file] and the filesystem *)




(** C6. If [write_codeowners_file] raises the size error, no file is
    created at the path and a file that was there keeps its content:
    what is found at the path is what was found before. *)
Theorem size_error_keeps_target (f : CodeOwnersFile) (p : path)
    (create_dirs : bool) (fs fs' : filesystem) (message : str) :
  write_codeowners_file f p create_dirs true fs
    = (Raise (CodeOwnersFileSizeError message), fs') ->
  fs' !! p = fs !! p.
Proof.
  intros (_ & Hadd & _)%size_error_origin.
  by apply directories_added_target.
Qed.

Lemma size_error_keeps_target_witness :
  ({[ ["nested"%string] := Directory ]} : gmap (list string) node)
    !! nested_path = (∅ : gmap (list string) node) !! nested_path /\
  exists fs' : gmap (list string) node,
    write_codeowners_file (document_of_size 3145729) top_path true true
      old_filesystem
    = (Raise (CodeOwnersFileSizeError (size_message 3145729)), fs') /\
    fs' !! top_path = Some (File (py "old content")).
Proof.
  split.
  - apply (size_error_keeps_target (document_of_size 3145729) nested_path
             true ∅ {[ ["nested"%string] := Directory ]}
             (size_message 3145729)).
    rewrite write_codeowners_file_steps, write_codeowners_oversized_document
      by lia.
    reflexivity.
  - exists old_filesystem.
    assert (write_codeowners_file (document_of_size 3145729) top_path true
              true old_filesystem
            = (Raise (CodeOwnersFileSizeError (size_message 3145729)),
               old_filesystem)) as Hrun.
    { rewrite write_codeowners_file_steps, write_codeowners_oversized_document
      by lia.
      reflexivity. }
    split; [exact Hrun|].
    etrans; [exact (size_error_keeps_target _ _ _ _ _ _ Hrun) | reflexivity].
Defined.

(** C7. A [write_codeowners_file] call that returns normally has
    overwritten the file in full: afterwards the file at the path holds
    exactly the UTF-8 encoding of the [write_codeowners] result, whatever
    was there before. *)
Theorem normal_return_overwrites (f : CodeOwnersFile) (p : path)
    (create_dirs validate_size : bool) (fs fs' : filesystem) :
  write_codeowners_file f p create_dirs validate_size fs = (Return tt, fs') ->
  exists content encoded,
    write_codeowners f validate_size = Return content /\
    encode_utf8 content = Some encoded /\
    fs' !! p = Some (File encoded).
Proof.
  rewrite write_codeowners_file_steps.
  destruct (if create_dirs then _ else _) as [[[]|e] fs1]; [|done].
  destruct (write_codeowners f validate_size) as [content|e]; [|done].
  destruct (write_text p content fs1) as [[n|e] fs2] eqn:Et; [|done].
  apply write_text_effect in Et as (encoded & Henc & ->).
  intros [= <-]. exists content, encoded.
  by rewrite lookup_insert_eq.
Qed.

Lemma normal_return_overwrites_witness :
  exists fs' : gmap (list string) node,
    write_codeowners_file sample_document top_path true true old_filesystem
      = (Return tt, fs') /\
    fs' !! top_path
      = Some (File (py "*.py @python-team" ++ [NEWLINE] ++ [NEWLINE]
                    ++ py "*.js @js-team")).
Proof.
  eexists. split; [reflexivity|].
  destruct (normal_return_overwrites sample_document top_path true true
              old_filesystem _ eq_refl)
    as (content & encoded & Hw & Henc & ->).
  injection Hw as <-. by injection Henc as <-.
Defined.

(** ** C8: the message of the size error *)

Lemma codes_uint_codes (d : Decimal.uint) : codes_uint (uint_codes d) = d.
Proof. induction d; simpl; by f_equal. Qed.

Lemma decimal_value_decimal (n : N) : decimal_value (decimal n) = n.
Proof.
  unfold decimal_value, decimal. rewrite codes_uint_codes.
  apply DecimalN.Unsigned.of_to.
Qed.

(** The hundredths shown are the nearest ones to the size in MiB. *)
Lemma size_mb_hundredths_nearest (n : N) :
  200 * n <= 2 * size_mb_hundredths n * 1048576 + 1048576 /\
  2 * size_mb_hundredths n * 1048576 <= 200 * n + 1048576.
Proof.
  unfold size_mb_hundredths.
  change (1024 * 1024) with 1048576.
  pose proof (N.div_mod (n * 100) 1048576 ltac:(done)) as Hdiv.
  pose proof (N.mod_lt (n * 100) 1048576 ltac:(done)) as Hlt.
  set (q := n * 100 / 1048576) in *. set (r := (n * 100) mod 1048576) in *.
  destruct (N.ltb_spec (2 * r) 1048576); [lia|].
  destruct (N.ltb_spec 1048576 (2 * r)); [lia|].
  destruct (N.even q); lia.
Qed.

Lemma write_codeowners_raises_size (f : CodeOwnersFile) (validate_size : bool)
    (message : str) :
  write_codeowners f validate_size = Raise (CodeOwnersFileSizeError message) ->
  exists n, byte_length (content_of f) = Some n /\
    MAX_FILE_SIZE_BYTES < n /\ message = size_message n.
Proof.
  destruct validate_size.
  - rewrite write_codeowners_validated.
    destruct (byte_length _) as [n|]; [|done].
    destruct (N.ltb_spec MAX_FILE_SIZE_BYTES n); [|done].
    intros [= <-]. by exists n.
  - by rewrite write_codeowners_unvalidated.
Qed.

(** C8. Whenever [write_codeowners] raises the size error, the message
    reports the encoded size in MiB with two decimals, namely the hundredth
    nearest to the byte length divided by 1,048,576, and states the 3 MB
    limit: it reads "CODEOWNERS file size (I.DD MB) exceeds GitHub's 3 MB
    limit. The file must be under 3 MB to be processed by GitHub." *)
Theorem size_error_message (f : CodeOwnersFile) (validate_size : bool)
    (message : str) :
  write_codeowners f validate_size = Raise (CodeOwnersFileSizeError message) ->
  exists n h d1 d2,
    byte_length (content_of f) = Some n /\
    (200 * n <= 2 * h * 1048576 + 1048576 /\
     2 * h * 1048576 <= 200 * n + 1048576) /\
    (d1 < 10 /\ d2 < 10 /\ h mod 100 = 10 * d1 + d2) /\
    decimal_value (decimal (h / 100)) = h / 100 /\
    message =
      py "CODEOWNERS file size (" ++ decimal (h / 100) ++ py "."
      ++ [48 + d1; 48 + d2]
      ++ py " MB) exceeds GitHub's 3 MB limit. The file must be under 3 MB to be processed by GitHub.".
Proof.
  intros (n & Hn & _ & ->)%write_codeowners_raises_size.
  exists n, (size_mb_hundredths n).
  exists ((size_mb_hundredths n) mod 100 / 10),
         ((size_mb_hundredths n) mod 100 mod 10).
  split; [done|]. split; [apply size_mb_hundredths_nearest|].
  pose proof (N.mod_lt (size_mb_hundredths n) 100 ltac:(done)).
  pose proof (N.mod_lt (size_mb_hundredths n mod 100) 10 ltac:(done)).
  pose proof (N.div_mod (size_mb_hundredths n mod 100) 10 ltac:(done)).
  split; [|split; [apply decimal_value_decimal|]].
  2: { unfold size_message, format_2f. rewrite <- !app_assoc. reflexivity. }
  split; [|split; [done | lia]].
  apply N.Div0.div_lt_upper_bound. lia.
Qed.

(** A document of 3,276,800 bytes, exactly 3.125 MiB, is reported as
    "3.12 MB": the tie goes to the even hundredth. *)
Lemma size_error_message_witness :
  write_codeowners (document_of_size 3276800) true
  = Raise (CodeOwnersFileSizeError
      (py "CODEOWNERS file size (3.12 MB) exceeds GitHub's 3 MB limit. The file must be under 3 MB to be processed by GitHub.")) /\
  exists n h d1 d2 : N,
    byte_length (content_of (document_of_size 3276800)) = Some n /\
    (200 * n <= 2 * h * 1048576 + 1048576 /\
     2 * h * 1048576 <= 200 * n + 1048576) /\
    (d1 < 10 /\ d2 < 10 /\ h mod 100 = 10 * d1 + d2) /\
    decimal_value (decimal (h / 100)) = h / 100 /\
    size_message 3276800 =
      py "CODEOWNERS file size (" ++ decimal (h / 100) ++ py "."
      ++ [48 + d1; 48 + d2]
      ++ py " MB) exceeds GitHub's 3 MB limit. The file must be under 3 MB to be processed by GitHub.".
Proof.
  split.
  - rewrite write_codeowners_oversized_document by lia. reflexivity.
  - apply (size_error_message (document_of_size 3276800) true).
    apply write_codeowners_oversized_document. lia.
Defined.

(** ** The parser: tokens, trimming and joining *)

Lemma push_token (t : str) (ws : list str) : t <> [] -> push t ws = t :: ws.
Proof. by destruct t. Qed.

Lemma split_go_tokens (s : str) :
  Forall (fun c => is_space c = false) (split_go s).1 /\
  Forall token (split_go s).2.
Proof.
  induction s as [|c s [IHw IHws]]; simpl; [by split|].
  destruct (split_go s) as [w ws]; simpl in *.
  destruct (is_space c) eqn:Ec; simpl.
  - split; [done|]. destruct w as [|d w]; simpl; [done|].
    constructor; [by split | done].
  - split; [by constructor | done].
Qed.

Lemma split_ws_tokens (s : str) : Forall token (split_ws s).
Proof.
  unfold split_ws. pose proof (split_go_tokens s) as [Hw Hws].
  destruct (split_go s) as [[|d w] ws]; simpl in *; [done|].
  constructor; [by split | done].
Qed.

Lemma split_go_app (t s : str) :
  Forall (fun c => is_space c = false) t ->
  split_go (t ++ s) = (t ++ (split_go s).1, (split_go s).2).
Proof.
  induction 1 as [|c t Hc _ IH]; simpl.
  - by destruct (split_go s).
  - rewrite IH, Hc. done.
Qed.

Lemma split_ws_space (c : N) (s : str) :
  is_space c = true -> split_ws (c :: s) = split_ws s.
Proof.
  intros Hc. unfold split_ws; simpl. rewrite Hc.
  by destruct (split_go s) as [[|d w] ws].
Qed.

Lemma split_ws_token (t : str) : token t -> split_ws t = [t].
Proof.
  intros [Hne Ht]. unfold split_ws.
  rewrite <- (app_nil_r t) at 1. rewrite split_go_app by done.
  simpl. rewrite app_nil_r. by apply push_token.
Qed.

Lemma split_ws_token_space (t s : str) :
  token t -> split_ws (t ++ SPACE :: s) = t :: split_ws s.
Proof.
  intros [Hne Ht]. unfold split_ws at 1.
  rewrite split_go_app by done. simpl.
  change (is_space SPACE) with true.
  destruct (split_go s) as [w ws] eqn:E; simpl.
  rewrite app_nil_r, push_token by done.
  unfold split_ws. by rewrite E.
Qed.

Lemma join_cons (sep x : str) (y : str) (rest : list str) :
  join sep (x :: y :: rest) = x ++ sep ++ join sep (y :: rest).
Proof. done. Qed.

Lemma split_ws_join (ts : list str) :
  Forall token ts -> split_ws (join [SPACE] ts) = ts.
Proof.
  induction ts as [|t [|t' rest] IH]; intros Hts; [done| |].
  - apply split_ws_token. by inversion Hts.
  - rewrite join_cons. inversion Hts as [|? ? Ht Hrest]; subst.
    change ([SPACE] ++ ?s) with (SPACE :: s).
    rewrite split_ws_token_space by done. f_equal. by apply IH.
Qed.

Lemma split_ws_lstrip (s : str) : split_ws (lstrip s) = split_ws s.
Proof.
  induction s as [|c s IH]; simpl; [done|].
  destruct (is_space c) eqn:Ec; [|done].
  by rewrite split_ws_space.
Qed.

Lemma split_ws_head (c : N) (s : str) :
  is_space c = false ->
  exists w ws, split_ws (c :: s) = (c :: w) :: ws.
Proof.
  intros Hc. unfold split_ws; simpl. rewrite Hc.
  destruct (split_go s) as [w ws]. by exists w, ws.
Qed.

Lemma lstrip_head (s : str) (c : N) (body : str) :
  lstrip s = c :: body -> is_space c = false.
Proof.
  induction s as [|d s IH]; simpl; [done|].
  destruct (is_space d) eqn:Ed; [done|]. by intros [= <- _].
Qed.

Lemma lstrip_nonspace (c : N) (s : str) :
  is_space c = false -> lstrip (c :: s) = c :: s.
Proof. intros Hc. simpl. by rewrite Hc. Qed.

Lemma lstrip_suffix (s : str) : lstrip s `suffix_of` s.
Proof.
  induction s as [|c s IH]; simpl; [done|].
  destruct (is_space c); [by apply suffix_cons_r | done].
Qed.

Lemma rstrip_cons (c : N) (s : str) :
  rstrip s <> [] -> rstrip (c :: s) = c :: rstrip s.
Proof. simpl. by destruct (rstrip s). Qed.

Lemma rstrip_app (s t : str) :
  rstrip t <> [] -> rstrip (s ++ t) = s ++ rstrip t.
Proof.
  intros Ht. induction s as [|c s IH]; [done|].
  simpl app. rewrite rstrip_cons; rewrite IH; [done|].
  by destruct s.
Qed.

Lemma rstrip_nonspace (t : str) :
  Forall (fun c => is_space c = false) t -> rstrip t = t.
Proof.
  induction 1 as [|c t Hc _ IH]; [done|].
  simpl. rewrite IH, Hc. by destruct t.
Qed.

Lemma rstrip_idemp (s : str) : rstrip (rstrip s) = rstrip s.
Proof.
  induction s as [|c s IH]; [done|]. simpl.
  destruct (rstrip s) as [|d kept] eqn:E.
  - destruct (is_space c) eqn:Ec; [done|]. simpl. by rewrite Ec.
  - rewrite rstrip_cons; by rewrite IH.
Qed.

Lemma rstrip_suffix (x y : str) :
  rstrip (x ++ y) = x ++ y -> y <> [] -> rstrip y = y.
Proof.
  intros H Hy. induction x as [|c x IH]; [done|].
  apply IH. simpl in H.
  destruct (rstrip (x ++ y)) as [|d kept] eqn:E.
  - destruct (is_space c); [done|]. injection H as H.
    symmetry in H. apply app_eq_nil in H as [_ ->]. done.
  - by injection H.
Qed.

Lemma join_nonempty (sep t : str) (rest : list str) :
  t <> [] -> join sep (t :: rest) <> [].
Proof. destruct t; [done|]. by destruct rest. Qed.

Lemma rstrip_join (ts : list str) :
  Forall token ts -> rstrip (join [SPACE] ts) = join [SPACE] ts.
Proof.
  induction ts as [|t [|t' rest] IH]; intros Hts; [done| |].
  - inversion Hts as [|? ? [_ Ht] _]; subst. by apply rstrip_nonspace.
  - rewrite join_cons, app_assoc. inversion Hts as [|? ? Ht Hrest]; subst.
    specialize (IH Hrest).
    rewrite rstrip_app; rewrite IH; [done|].
    inversion Hrest as [|? ? [Hne _] _]; subst. by apply join_nonempty.
Qed.

Lemma join_cons_nonempty (sep x : str) (rest : list str) :
  rest <> [] -> join sep (x :: rest) = x ++ sep ++ join sep rest.
Proof. by destruct rest. Qed.

Lemma join_snoc_join (sep : str) (xs ys : list str) :
  ys <> [] -> join sep (xs ++ [join sep ys]) = join sep (xs ++ ys).
Proof.
  intros Hys. induction xs as [|x xs IH]; [done|].
  simpl app. rewrite !join_cons_nonempty, IH; [done| |].
  - by destruct xs, ys.
  - by destruct xs.
Qed.

Lemma scan_tokens_spec (ts : list str) :
  ts = (scan_tokens ts).1 ++ (scan_tokens ts).2 /\
  Forall (fun t => starts_with_hash t = false) (scan_tokens ts).1 /\
  match (scan_tokens ts).2 with
  | [] => True
  | t :: _ => starts_with_hash t = true
  end.
Proof.
  induction ts as [|t ts (IH1 & IH2 & IH3)]; simpl; [done|].
  destruct (starts_with_hash t) eqn:Et; simpl; [done|].
  destruct (scan_tokens ts) as [os cs]; simpl in *.
  split; [by f_equal|]. split; [by constructor | done].
Qed.

Lemma scan_tokens_app (os cs : list str) :
  Forall (fun t => starts_with_hash t = false) os ->
  match cs with [] => True | t :: _ => starts_with_hash t = true end ->
  scan_tokens (os ++ cs) = (os, cs).
Proof.
  intros Hos Hcs. induction Hos as [|t os Ht _ IH]; simpl.
  - destruct cs as [|t cs]; [done|]. simpl. by rewrite Hcs.
  - by rewrite Ht, IH.
Qed.

(** The trailing comment is the single-space join of the words after the
    marker. *)
Lemma inline_comment_words (t : str) (ts : list str) :
  token t -> starts_with_hash t = true -> Forall token ts ->
  inline_comment (t :: ts) = Some (join [SPACE] (push (tail t) ts)) /\
  Forall token (push (tail t) ts).
Proof.
  intros [_ Ht] Hhash Hts. destruct t as [|h t]; [done|].
  inversion Ht as [|? ? _ Ht']; subst. simpl tail.
  split.
  - unfold inline_comment. f_equal.
    destruct ts as [|t2 ts].
    + simpl. destruct t as [|d t]; [done|]. simpl.
      destruct (N.eqb_spec d SPACE) as [->|]; [by inversion Ht'|done].
    + rewrite join_cons. simpl.
      destruct t as [|d t]; simpl.
      * done.
      * destruct (N.eqb_spec d SPACE) as [->|]; [by inversion Ht'|done].
  - destruct t as [|d t]; [done|]. simpl. constructor; [by split | done].
Qed.

Lemma token_hash : token [HASH].
Proof. split; [done|]. by constructor. Qed.

(** A line made of a pattern, owner tokens and, possibly, a comment
    marker followed by words parses to the rule they spell. *)
Lemma parse_trimmed_rule_line (pat : str) (os words : list str) :
  token pat -> starts_with_hash pat = false ->
  Forall token os -> Forall (fun t => starts_with_hash t = false) os ->
  Forall token words ->
  parse_trimmed
    (join [SPACE]
       (pat :: os ++ match words with [] => [] | _ => [HASH] :: words end))
  = entry_rule pat (map from_string os)
      match words with [] => None | _ => Some (join [SPACE] words) end.
Proof.
  intros Hpat Hnohash Hos Hosh Hwords.
  set (rest := match words with [] => [] | _ => [HASH] :: words end).
  assert (Forall token (pat :: os ++ rest)) as Htoks.
  { constructor; [done|]. apply Forall_app. split; [done|].
    unfold rest. destruct words; [done|]. constructor; [apply token_hash|done]. }
  destruct pat as [|c w]; [by destruct Hpat|].
  assert (is_space c = false) as Hc by (destruct Hpat as [_ H]; by inversion H).
  assert (exists tl, join [SPACE] ((c :: w) :: os ++ rest) = c :: tl)
    as [tl Hline] by (destruct (os ++ rest); by eexists).
  unfold parse_trimmed. rewrite Hline. simpl nonempty. simpl negb.
  rewrite lstrip_nonspace by done. simpl in Hnohash. rewrite Hnohash.
  rewrite <- Hline, split_ws_join by done.
  rewrite scan_tokens_app; [|done|by unfold rest; destruct words].
  f_equal. unfold rest. destruct words as [|wd words]; [done|].
  unfold inline_comment. by rewrite join_cons.
Qed.

(** ** The parser: one line, parsed, formatted and parsed again *)

Lemma drop_space_suffix (s : str) : drop_space s `suffix_of` s.
Proof.
  destruct s as [|c s]; [done|]. simpl.
  destruct (c =? SPACE); [by apply suffix_cons_r | done].
Qed.

Lemma parse_trimmed_parsed (line : str) : parsed line (parse_trimmed line).
Proof.
  unfold parse_trimmed.
  destruct (nonempty line); simpl; [|constructor].
  destruct (lstrip line) as [|c body] eqn:Estrip; [constructor|].
  pose proof (lstrip_head _ _ _ Estrip) as Hc.
  destruct (N.eqb_spec c HASH) as [->|Hhash].
  - constructor. etrans; [apply drop_space_suffix|].
    etrans; [by apply suffix_cons_r|]. rewrite <- Estrip.
    apply lstrip_suffix.
  - pose proof (split_ws_tokens line) as Htoks.
    rewrite <- split_ws_lstrip, Estrip in Htoks |- *.
    destruct (split_ws_head c body Hc) as (w & ws & Hsplit).
    rewrite Hsplit in Htoks |- *.
    inversion Htoks as [|? ? Hpat Hws]; subst.
    pose proof (scan_tokens_spec ws) as (Happ & Hos & Hcs).
    destruct (scan_tokens ws) as [os cs]; simpl in *.
    rewrite Happ in Hws. apply Forall_app in Hws as [Hos_tok Hcs_tok].
    assert (starts_with_hash (c :: w) = false) as Hpat_hash
      by (simpl; by apply N.eqb_neq).
    destruct cs as [|t ts].
    + apply (parsed_rule line (c :: w) os [] None); auto.
    + inversion Hcs_tok as [|? ? Ht Hts]; subst.
      destruct (inline_comment_words t ts Ht Hcs Hts) as [-> Hwords].
      apply (parsed_rule line (c :: w) os (push (tail t) ts)); auto.
Qed.

Lemma map_owner_str_from_string (os : list str) :
  map owner_str (map from_string os) = os.
Proof. induction os as [|t os IH]; simpl; [done|]. by rewrite IH. Qed.

Lemma parse_line_rule (pat : str) (os words : list str) :
  token pat -> starts_with_hash pat = false ->
  Forall token os -> Forall (fun t => starts_with_hash t = false) os ->
  Forall token words ->
  parse_line
    (join [SPACE]
       (pat :: os ++ match words with [] => [] | _ => [HASH] :: words end))
  = entry_rule pat (map from_string os)
      match words with [] => None | _ => Some (join [SPACE] words) end.
Proof.
  intros Hpat Hhash Hos Hosh Hwords. unfold parse_line.
  rewrite rstrip_join; [by apply parse_trimmed_rule_line|].
  constructor; [done|]. apply Forall_app. split; [done|].
  destruct words; [done|]. constructor; [apply token_hash | done].
Qed.

Lemma truthy_join_tokens (wd : str) (words : list str) :
  token wd -> truthy (Some (join [SPACE] (wd :: words))) = true.
Proof.
  intros [Hwd _]. pose proof (join_nonempty [SPACE] wd words Hwd) as H.
  unfold truthy, nonempty. by destruct (join [SPACE] (wd :: words)).
Qed.

(** The line written for a parsed rule: its tokens, single-spaced. *)
Lemma format_parsed_rule (pat : str) (os words : list str) (cm : option str) :
  token pat -> Forall token words ->
  (cm = None /\ words = [] \/ cm = Some (join [SPACE] words)) ->
  format_entry (entry_rule pat (map from_string os) cm)
  = join [SPACE]
      (pat :: os ++ match words with [] => [] | _ => [HASH] :: words end).
Proof.
  intros Hpat Hwords Hcm. destruct pat as [|c w]; [by destruct Hpat|].
  rewrite format_entry_rule_nonempty, map_owner_str_from_string.
  destruct Hcm as [[-> ->] | ->]; [done|].
  destruct words as [|wd words]; [done|].
  rewrite truthy_join_tokens by (by inversion Hwords).
  change ((c :: w) :: os ++ [HASH] :: wd :: words)
    with (((c :: w) :: os) ++ [HASH] :: wd :: words).
  rewrite <- join_snoc_join by done. reflexivity.
Qed.

Lemma parsed_reparse (line : str) (e : CodeOwnersEntry) :
  rstrip line = line -> parsed line e ->
  parse_line (format_entry e) = normalise_entry e.
Proof.
  intros Hline [|body [x Hbody]|pat os words cm Hpat Hhash Hos Hosh Hwords Hcm].
  - reflexivity.
  - destruct body as [|d body]; [reflexivity|].
    assert (rstrip (d :: body) = d :: body) as Hfix
      by (apply (rstrip_suffix x); [by rewrite <- Hbody | done]).
    change (format_entry (entry_comment (d :: body)))
      with ([HASH; SPACE] ++ d :: body).
    unfold parse_line. rewrite rstrip_app; rewrite Hfix; [|done].
    reflexivity.
  - rewrite (format_parsed_rule pat os words cm) by done.
    rewrite parse_line_rule by done.
    unfold normalise_entry, absent_if_empty, entry_rule; simpl.
    destruct Hcm as [[-> ->] | ->]; [done|].
    destruct words as [|wd words]; [done|].
    by rewrite truthy_join_tokens by (by inversion Hwords).
Qed.

Lemma parse_format_parse_line (l : str) :
  parse_line (format_entry (parse_line l)) = normalise_entry (parse_line l).
Proof.
  unfold parse_line at 2 3.
  apply (parsed_reparse (rstrip l)); [apply rstrip_idemp|].
  apply parse_trimmed_parsed.
Qed.

(** ** The parser: lines of a document *)

Lemma split_lines_nonempty (s : str) : split_lines s <> [].
Proof.
  induction s as [|c s IH]; simpl; [done|].
  destruct (c =? NEWLINE); [done|]. by destruct (split_lines s).
Qed.

Lemma split_lines_no_newline (s : str) : Forall no_newline (split_lines s).
Proof.
  induction s as [|c s IH]; simpl.
  - repeat constructor.
  - destruct (N.eqb_spec c NEWLINE) as [->|Hc].
    + constructor; [constructor | done].
    + destruct (split_lines s) as [|l ls]; [repeat constructor; done|].
      inversion IH; subst. constructor; [by constructor | done].
Qed.

Lemma split_lines_app (l s : str) :
  no_newline l ->
  split_lines (l ++ s)
  = match split_lines s with
    | h :: t => (l ++ h) :: t
    | [] => [l]
    end.
Proof.
  induction 1 as [|c l Hc _ IH]; simpl.
  - by destruct (split_lines s) eqn:E; [destruct (split_lines_nonempty s)|].
  - apply N.eqb_neq in Hc. rewrite Hc, IH.
    by destruct (split_lines s).
Qed.

Lemma split_lines_join (ls : list str) :
  ls <> [] -> Forall no_newline ls -> split_lines (join [NEWLINE] ls) = ls.
Proof.
  induction ls as [|l [|l' rest] IH]; intros Hne Hls; [done| |].
  - inversion Hls; subst. simpl join.
    rewrite <- (app_nil_r l) at 1. rewrite split_lines_app by done.
    simpl. by rewrite app_nil_r.
  - inversion Hls; subst. rewrite join_cons, split_lines_app by done.
    change ([NEWLINE] ++ ?s) with (NEWLINE :: s).
    cbn [split_lines]. change (NEWLINE =? NEWLINE) with true. cbv iota.
    rewrite app_nil_r, IH; done.
Qed.

Lemma rstrip_prefix (s : str) : rstrip s `prefix_of` s.
Proof.
  induction s as [|c s IH]; simpl; [done|].
  destruct (rstrip s) as [|d kept].
  - destruct (is_space c); [apply prefix_nil | by apply prefix_cons, prefix_nil].
  - by apply prefix_cons.
Qed.

Lemma join_tokens_no_newline (ts : list str) :
  Forall token ts -> no_newline (join [SPACE] ts).
Proof.
  assert (forall t, token t -> no_newline t) as Htok.
  { intros t [_ Ht]. eapply Forall_impl; [exact Ht|].
    intros c Hc ->. done. }
  induction ts as [|t [|t' rest] IH]; intros Hts; [constructor| |].
  - inversion Hts; subst. by apply Htok.
  - inversion Hts; subst. rewrite join_cons.
    apply Forall_app. split; [by apply Htok|].
    apply Forall_app. split; [by repeat constructor | by apply IH].
Qed.

Lemma parsed_no_newline (line : str) (e : CodeOwnersEntry) :
  parsed line e -> no_newline line -> no_newline (format_entry e).
Proof.
  intros [|body [x ->]|pat os words cm Hpat Hhash Hos Hosh Hwords Hcm] Hline.
  - constructor.
  - apply Forall_app in Hline as [_ Hbody].
    destruct body as [|d body]; [by repeat constructor|].
    change (format_entry (entry_comment (d :: body)))
      with (HASH :: SPACE :: d :: body).
    by repeat (constructor; [done|]).
  - rewrite (format_parsed_rule pat os words cm) by done.
    apply join_tokens_no_newline.
    constructor; [done|]. apply Forall_app. split; [done|].
    destruct words; [done|]. constructor; [apply token_hash | done].
Qed.

Lemma format_parse_line_no_newline (l : str) :
  no_newline l -> no_newline (format_entry (parse_line l)).
Proof.
  intros Hl. apply (parsed_no_newline (rstrip l)).
  - apply parse_trimmed_parsed.
  - destruct (rstrip_prefix l) as [post Hpost].
    rewrite Hpost in Hl. by apply Forall_app in Hl as [? _].
Qed.

(** Parsing what was written from a parsed document gives the same
    entries, an empty inline comment apart. *)
Lemma parse_write_parse (text : str) :
  parse_codeowners (content_of (parse_codeowners text))
  = {| entries := map normalise_entry (entries (parse_codeowners text)) |}.
Proof.
  unfold parse_codeowners, content_of. simpl entries. f_equal.
  rewrite split_lines_join.
  - rewrite !map_map. apply map_ext. intros l. apply parse_format_parse_line.
  - pose proof (split_lines_nonempty text). by destruct (split_lines text).
  - rewrite map_map. apply Forall_map.
    eapply Forall_impl; [apply split_lines_no_newline|].
    intros l Hl. by apply format_parse_line_no_newline.
Qed.

(** * Further properties of the writer *)

(** ** Joining and encoding, piece by piece *)

Lemma join_app (sep : str) (xs ys : list str) :
  xs <> [] -> ys <> [] ->
  join sep (xs ++ ys) = join sep xs ++ sep ++ join sep ys.
Proof.
  intros Hxs Hys. induction xs as [|x [|x' xs] IH]; [done| |].
  - simpl app. by rewrite join_cons_nonempty.
  - change ((x :: x' :: xs) ++ ys) with (x :: (x' :: xs) ++ ys).
    rewrite !join_cons_nonempty by done. rewrite IH by done.
    by rewrite <- !app_assoc.
Qed.

Lemma encode_utf8_app (s t : str) :
  encode_utf8 (s ++ t) =
    match encode_utf8 s, encode_utf8 t with
    | Some a, Some b => Some (a ++ b)
    | _, _ => None
    end.
Proof.
  induction s as [|c s IH]; simpl.
  - by destruct (encode_utf8 t).
  - rewrite IH. destruct (encode_codepoint c) as [b|]; [|done].
    destruct (encode_utf8 s) as [a|]; [|done].
    destruct (encode_utf8 t) as [a'|]; [|done].
    by rewrite app_assoc.
Qed.

Lemma len_app {A} (l k : list A) : len (l ++ k) = len l + len k.
Proof. unfold len. rewrite length_app. lia. Qed.

Lemma is_surrogate_spec (c : N) :
  is_surrogate c = true <-> 0xD800 <= c <= 0xDFFF.
Proof.
  unfold is_surrogate. rewrite andb_true_iff, !N.leb_le. done.
Qed.

Lemma encode_codepoint_none (c : N) :
  encode_codepoint c = None <-> is_surrogate c = true.
Proof.
  rewrite is_surrogate_spec. unfold encode_codepoint.
  destruct (N.ltb_spec c 0x80) as [H1|H1]; [split; [done | lia]|].
  destruct (N.ltb_spec c 0x800) as [H2|H2]; [split; [done | lia]|].
  destruct (N.ltb_spec c 0x10000) as [H3|H3]; [|split; [done | lia]].
  destruct (is_surrogate c) eqn:E.
  - apply is_surrogate_spec in E. done.
  - split; [done|]. intros H%is_surrogate_spec. congruence.
Qed.

Lemma encode_codepoint_len (c : N) (b : bytes) :
  encode_codepoint c = Some b -> 1 <= len b <= 4.
Proof.
  unfold encode_codepoint.
  repeat (destruct (_ <? _)); [| |destruct (is_surrogate c)|];
    intros [= <-]; unfold len; simpl; lia.
Qed.

Lemma encode_utf8_none (s : str) :
  encode_utf8 s = None <-> has_surrogate s = true.
Proof.
  induction s as [|c s IH]; simpl; [done|].
  destruct (encode_codepoint c) as [b|] eqn:Ec.
  - assert (is_surrogate c = false) as ->.
    { destruct (is_surrogate c) eqn:E; [|done].
      apply encode_codepoint_none in E. congruence. }
    simpl. rewrite <- IH. by destruct (encode_utf8 s).
  - apply encode_codepoint_none in Ec as ->. done.
Qed.

Lemma byte_length_bounds (s : str) (n : N) :
  byte_length s = Some n -> len s <= n <= 4 * len s.
Proof.
  unfold byte_length. revert n. induction s as [|c s IH]; intros n; simpl.
  - intros [= <-]. unfold len; simpl. lia.
  - destruct (encode_codepoint c) as [b|] eqn:Ec; [|done].
    destruct (encode_utf8 s) as [bs|]; [|done].
    simpl. intros [= <-]. specialize (IH _ eq_refl).
    apply encode_codepoint_len in Ec. rewrite len_app.
    unfold len in *. simpl length. lia.
Qed.

Lemma byte_length_app (s t : str) :
  byte_length (s ++ t) =
    match byte_length s, byte_length t with
    | Some a, Some b => Some (a + b)
    | _, _ => None
    end.
Proof.
  unfold byte_length. rewrite encode_utf8_app.
  destruct (encode_utf8 s), (encode_utf8 t); simpl; try done.
  by rewrite len_app.
Qed.

Lemma content_of_app (es1 es2 : list CodeOwnersEntry) :
  es1 <> [] -> es2 <> [] ->
  content_of (document (es1 ++ es2))
  = content_of (document es1) ++ [NEWLINE] ++ content_of (document es2).
Proof.
  intros H1 H2. unfold content_of, document. simpl entries.
  rewrite map_app. apply join_app; by destruct es1, es2.
Qed.

(** ** The text of a document *)

(** X1. The text of a document made of two non-empty runs of entries is the
    text of the first run, one newline, and the text of the second: adding
    entries at the end adds lines at the end and changes nothing before. *)
Theorem write_codeowners_app (es1 es2 : list CodeOwnersEntry) :
  es1 <> [] -> es2 <> [] ->
  exists c1 c2,
    write_codeowners (document es1) false = Return c1 /\
    write_codeowners (document es2) false = Return c2 /\
    write_codeowners (document (es1 ++ es2)) false
      = Return (c1 ++ [NEWLINE] ++ c2).
Proof.
  intros H1 H2. exists (content_of (document es1)), (content_of (document es2)).
  rewrite !write_codeowners_unvalidated. by rewrite content_of_app.
Qed.

Lemma write_codeowners_app_witness :
  exists c1 c2,
    write_codeowners
      (document [entry_comment (py "Python files")]) false = Return c1 /\
    write_codeowners
      (document [entry_rule (py "*.py") [owner "@python-team"] None]) false
      = Return c2 /\
    write_codeowners
      (document ([entry_comment (py "Python files")]
                 ++ [entry_rule (py "*.py") [owner "@python-team"] None]))
      false
      = Return (c1 ++ [NEWLINE] ++ c2).
Proof. apply write_codeowners_app; discriminate. Defined.

(** X2. Splitting the written text at its newlines, as the tests do with
    [result.split("\n")], gives back the formatted entries, one line per
    entry in document order, for every non-empty document none of whose
    formatted entries contains a newline. *)
Theorem written_lines (f : CodeOwnersFile) (validate_size : bool) (c : str) :
  entries f <> [] ->
  Forall (fun e => no_newline (format_entry e)) (entries f) ->
  write_codeowners f validate_size = Return c ->
  split_lines c = map format_entry (entries f).
Proof.
  intros Hne Hnl ->%write_codeowners_returns. unfold content_of.
  apply split_lines_join; [by destruct (entries f)|].
  by apply Forall_map.
Qed.

Lemma written_lines_witness :
  split_lines (py "*.py @python-team" ++ [NEWLINE] ++ [NEWLINE]
               ++ py "*.js @js-team")
  = [py "*.py @python-team"; []; py "*.js @js-team"].
Proof.
  apply (written_lines sample_document true); [discriminate | | reflexivity].
  repeat constructor; discriminate.
Defined.

Lemma join_head_nonempty (sep : str) (c : N) (x : str) (rest : list str) :
  exists tl, join sep ((c :: x) :: rest) = c :: tl.
Proof. destruct rest; by eexists. Qed.

(** X3. An entry formats to the empty string exactly when it is a BLANK
    entry or a RULE entry whose pattern is missing or empty; a COMMENT
    entry never formats to the empty string. *)
Theorem format_entry_empty_iff (e : CodeOwnersEntry) :
  format_entry e = [] <->
  type e = BLANK \/ (type e = RULE /\ truthy (pattern e) = false).
Proof.
  destruct e as [[] p os cm]; simpl.
  - split; [by left | done].
  - unfold format_entry; simpl. split.
    + by destruct cm as [[|c body]|].
    + by intros [|[? _]].
  - destruct p as [[|c pat]|].
    + split; [by right | done].
    + rewrite (format_entry_rule_nonempty c pat os cm
               : format_entry (Build_CodeOwnersEntry _ _ _ _) = _).
      destruct (join_head_nonempty [SPACE] c pat
                  (map owner_str os ++
                   if truthy cm then [HASH :: SPACE :: the cm] else []))
        as [tl ->].
      split; [done|]. by intros [|[_ ?]].
    + split; [by right | done].
Qed.

(** X4. [write_codeowners] returns the empty string exactly for the empty
    document and for a document of a single entry that formats to the
    empty string: the written text does not tell these apart. *)
Theorem write_codeowners_empty_iff (f : CodeOwnersFile) (validate_size : bool) :
  write_codeowners f validate_size = Return [] <->
  entries f = [] \/ exists e, entries f = [e] /\ format_entry e = [].
Proof.
  assert (content_of f = [] <->
          entries f = [] \/ exists e, entries f = [e] /\ format_entry e = [])
    as Hcontent.
  { unfold content_of. destruct (entries f) as [|e [|e' es]]; simpl map.
    - split; [by left | done].
    - simpl. split; [intros H; right; by exists e|].
      by intros [|(e0 & [= <-] & ?)].
    - rewrite join_cons. split.
      + intros H. apply app_eq_nil in H as [_ H]. done.
      + by intros [|(e0 & ? & _)]. }
  rewrite <- Hcontent. split.
  - by intros <-%write_codeowners_returns.
  - intros H. destruct validate_size.
    + rewrite write_codeowners_validated, H. reflexivity.
    + by rewrite write_codeowners_unvalidated, H.
Qed.

(** X5. The size check is closed under taking the entries apart: when a
    document passes validation, so do its first entries alone and its last
    entries alone.  A document that fails validation cannot be repaired by
    adding entries before or after it. *)
Theorem validated_parts (es1 es2 : list CodeOwnersEntry) (c : str) :
  write_codeowners (document (es1 ++ es2)) true = Return c ->
  write_codeowners (document es1) true = Return (content_of (document es1)) /\
  write_codeowners (document es2) true = Return (content_of (document es2)).
Proof.
  destruct es1 as [|e1 es1].
  { intros H. split; [reflexivity|].
    by rewrite (write_codeowners_returns _ _ _ H) in H. }
  destruct es2 as [|e2 es2].
  { rewrite app_nil_r. intros H. split; [|reflexivity].
    by rewrite (write_codeowners_returns _ _ _ H) in H. }
  rewrite !write_codeowners_validated, content_of_app by done.
  rewrite !byte_length_app.
  destruct (byte_length (content_of (document (e1 :: es1)))) as [n1|]; [|done].
  change (byte_length [NEWLINE]) with (Some 1).
  destruct (byte_length (content_of (document (e2 :: es2)))) as [n2|]; [|done].
  destruct (N.ltb_spec MAX_FILE_SIZE_BYTES (n1 + (1 + n2))); [done|].
  intros _.
  destruct (N.ltb_spec MAX_FILE_SIZE_BYTES n1); [lia|].
  destruct (N.ltb_spec MAX_FILE_SIZE_BYTES n2); [lia|]. done.
Qed.

Lemma validated_parts_witness :
  write_codeowners
    (document [entry_rule (py "*.py") [owner "@python-team"] None]) true
  = Return (py "*.py @python-team").
Proof.
  apply (validated_parts
           [entry_rule (py "*.py") [owner "@python-team"] None]
           [entry_blank; entry_rule (py "*.js") [owner "@js-team"] None]
           (py "*.py @python-team" ++ [NEWLINE] ++ [NEWLINE]
            ++ py "*.js @js-team")).
  reflexivity.
Defined.

(** ** The size check, seen from the text *)

(** X6. The byte length lies between the number of characters and four
    times that number.  So with validation a text of at most 786,432
    characters without lone surrogate is always returned, and a text of
    more than 3,145,728 characters is never returned. *)
Theorem size_check_by_characters (f : CodeOwnersFile) :
  (has_surrogate (content_of f) = false ->
   len (content_of f) <= 786432 ->
   write_codeowners f true = Return (content_of f)) /\
  (3145728 < len (content_of f) ->
   forall c, write_codeowners f true <> Return c).
Proof.
  rewrite write_codeowners_validated. split.
  - intros Hs Hlen.
    destruct (byte_length (content_of f)) as [n|] eqn:En.
    + apply byte_length_bounds in En.
      destruct (N.ltb_spec MAX_FILE_SIZE_BYTES n) as [Hlt|]; [|done].
      change MAX_FILE_SIZE_BYTES with 3145728 in Hlt. lia.
    + unfold byte_length in En.
      destruct (encode_utf8 (content_of f)) eqn:Ee; [done|].
      apply encode_utf8_none in Ee. congruence.
  - intros Hlen c.
    destruct (byte_length (content_of f)) as [n|] eqn:En; [|done].
    apply byte_length_bounds in En.
    destruct (N.ltb_spec MAX_FILE_SIZE_BYTES n) as [|Hle]; [done|].
    change MAX_FILE_SIZE_BYTES with 3145728 in Hle. lia.
Qed.

Lemma len_content_document_of_size (n : N) :
  3 <= n -> len (content_of (document_of_size n)) = n.
Proof.
  intros Hn. rewrite content_document_of_size by done.
  unfold len. simpl length. rewrite !Nat2N.inj_succ.
  fold (len (filler (n - 2))). rewrite len_filler. lia.
Qed.

Lemma size_check_by_characters_witness :
  write_codeowners sample_document true = Return (content_of sample_document) /\
  forall c, write_codeowners (document_of_size 3145729) true <> Return c.
Proof.
  split.
  - apply (size_check_by_characters sample_document); [reflexivity|].
    vm_compute. discriminate.
  - apply (size_check_by_characters (document_of_size 3145729)).
    rewrite len_content_document_of_size; lia.
Defined.

(** X7. With validation, [write_codeowners] raises [UnicodeEncodeError]
    exactly when the text holds a lone surrogate, whatever its size; apart
    from that error and the size error it raises nothing. *)
Theorem write_codeowners_unicode_error (f : CodeOwnersFile) :
  (write_codeowners f true = Raise UnicodeEncodeError
   <-> has_surrogate (content_of f) = true) /\
  (forall e, write_codeowners f true = Raise e ->
     e = UnicodeEncodeError \/ exists message, e = CodeOwnersFileSizeError message).
Proof.
  rewrite write_codeowners_validated. unfold byte_length.
  rewrite <- encode_utf8_none.
  destruct (encode_utf8 (content_of f)) as [encoded|]; simpl.
  - destruct (_ <? _); split; try done; try (split; done).
    intros e [= <-]. right. by eexists.
  - split; [done|]. intros e [= <-]. by left.
Qed.

Lemma write_codeowners_unicode_error_witness :
  write_codeowners (document [entry_comment [0xD800]]) true
  = Raise UnicodeEncodeError.
Proof.
  apply (write_codeowners_unicode_error (document [entry_comment [0xD800]])).
  reflexivity.
Defined.

(** ** The reported size *)

Lemma size_mb_hundredths_300 (n : N) :
  3140486 <= n <= 3150970 -> size_mb_hundredths n = 300.
Proof.
  intros Hn. unfold size_mb_hundredths.
  change (1024 * 1024) with 1048576.
  pose proof (N.div_mod (n * 100) 1048576 ltac:(done)) as Hdiv.
  pose proof (N.mod_lt (n * 100) 1048576 ltac:(done)) as Hlt.
  set (q := n * 100 / 1048576) in *. set (r := (n * 100) mod 1048576) in *.
  assert (q = 299 \/ q = 300) as [Hq|Hq] by nia; rewrite Hq in *.
  - destruct (N.ltb_spec (2 * r) 1048576); [lia|].
    destruct (N.ltb_spec 1048576 (2 * r)); [done|lia].
  - destruct (N.ltb_spec (2 * r) 1048576); [done|lia].
Qed.

(** X8. A size error for a text of 3,145,729 to 3,150,970 bytes reports
    the size as "3.00 MB": the message then reads "CODEOWNERS file size
    (3.00 MB) exceeds GitHub's 3 MB limit." *)
Theorem size_error_just_over (f : CodeOwnersFile) (n : N) :
  byte_length (content_of f) = Some n ->
  3145728 < n <= 3150970 ->
  write_codeowners f true
  = Raise (CodeOwnersFileSizeError
      (py "CODEOWNERS file size (3.00 MB) exceeds GitHub's 3 MB limit. The file must be under 3 MB to be processed by GitHub.")).
Proof.
  intros Hn Hrange. rewrite write_codeowners_validated, Hn.
  destruct (N.ltb_spec MAX_FILE_SIZE_BYTES n) as [|Hle].
  - unfold size_message. rewrite size_mb_hundredths_300 by lia. reflexivity.
  - change MAX_FILE_SIZE_BYTES with 3145728 in Hle. lia.
Qed.

Lemma size_error_just_over_witness :
  write_codeowners (document_of_size 3150970) true
  = Raise (CodeOwnersFileSizeError
      (py "CODEOWNERS file size (3.00 MB) exceeds GitHub's 3 MB limit. The file must be under 3 MB to be processed by GitHub.")).
Proof.
  apply (size_error_just_over (document_of_size 3150970) 3150970).
  - apply byte_length_document_of_size. lia.
  - lia.
Defined.

(** ** More on the filesystem operations *)

Lemma stat_insert_ne (p q : path) (x : node) (fs : filesystem) :
  p <> q -> stat q (<[p := x]> fs) = stat q fs.
Proof. intros Hne. destruct q; [done|]. simpl. by rewrite lookup_insert_ne. Qed.

Lemma stat_insert_eq (c : string) (d : path) (x : node) (fs : filesystem) :
  stat (c :: d) (<[c :: d := x]> fs) = Some x.
Proof. simpl. by rewrite lookup_insert_eq. Qed.

Lemma cons_ne_tail {A} (c : A) (d : list A) : c :: d <> d.
Proof. intros H. apply (f_equal length) in H. simpl in H. lia. Qed.

Lemma write_text_other (p q : path) (data : str) (fs fs' : filesystem)
    (r : result N) :
  write_text p data fs = (r, fs') -> q <> p -> fs' !! q = fs !! q.
Proof.
  unfold write_text. intros H Hne. destruct p as [|c d]; [by injection H as _ <-|].
  destruct (stat _ fs) as [[|?]|]; [|by injection H as _ <-..].
  destruct (fs !! (c :: d)) as [[|?]|]; [by injection H as _ <-| |];
    (destruct (encode_utf8 data); injection H as _ <-;
     by rewrite ?lookup_insert_ne by done).
Qed.

Lemma write_text_returns (p : path) (data : str) (fs fs' : filesystem) (n : N) :
  write_text p data fs = (Return n, fs') ->
  exists c d encoded,
    p = c :: d /\ stat d fs = Some Directory /\
    fs !! p <> Some Directory /\
    encode_utf8 data = Some encoded /\
    fs' = <[p := File encoded]> fs.
Proof.
  unfold write_text. destruct p as [|c d]; [done|].
  change (parent (c :: d)) with d.
  destruct (stat d fs) as [[|?]|] eqn:Ed; [|done..].
  destruct (fs !! (c :: d)) as [[|?]|] eqn:Ep; [done| |];
    (destruct (encode_utf8 data) as [encoded|]; [|done];
     intros [= _ <-]; exists c, d, encoded;
     by rewrite insert_insert_eq).
Qed.

(** When [write_text] can go through. *)
Lemma write_text_succeeds (c : string) (d : path) (data : str) (encoded : bytes)
    (fs : filesystem) :
  stat d fs = Some Directory -> fs !! (c :: d) <> Some Directory ->
  encode_utf8 data = Some encoded ->
  write_text (c :: d) data fs
  = (Return (len data), <[c :: d := File encoded]> fs).
Proof.
  intros Hd Hp He. unfold write_text. change (parent (c :: d)) with d.
  rewrite Hd, He. destruct (fs !! (c :: d)) as [[|?]|]; [done|..];
    by rewrite insert_insert_eq.
Qed.

Lemma mkdir_returns_dir (exist_ok : bool) (p : path) (fs fs' : filesystem) :
  mkdir exist_ok p fs = (Return tt, fs') -> is_dir p fs' = true.
Proof.
  unfold mkdir.
  destruct (os_mkdir_effect p fs) as [(e & -> & He)|(-> & Hnone & Hroot)].
  - destruct e; try done;
      (destruct exist_ok; simpl; [|done];
       destruct (is_dir p fs) eqn:E; simpl; [by intros [= <-] | done]).
  - intros [= <-]. destruct p as [|c d]; [done|].
    unfold is_dir. by rewrite stat_insert_eq.
Qed.

Lemma mkdir_parents_returns_dir (exist_ok : bool) (p : path)
    (fs fs' : filesystem) :
  mkdir_parents exist_ok p fs = (Return tt, fs') -> is_dir p fs' = true.
Proof.
  destruct p as [|c up]; [apply mkdir_returns_dir|].
  cbn [mkdir_parents].
  destruct (os_mkdir (c :: up) fs) as [[[]|e] fs0] eqn:E;
    [apply mkdir_returns_dir|].
  destruct e; try apply mkdir_returns_dir.
  unfold mbind, io_bind.
  destruct (mkdir_parents true up fs0) as [[[]|e1] fs1]; [|done].
  apply mkdir_returns_dir.
Qed.

Lemma is_dir_stat (p : path) (fs : filesystem) :
  is_dir p fs = true <-> stat p fs = Some Directory.
Proof. unfold is_dir. by destruct (stat p fs) as [[|?]|]. Qed.

Lemma os_mkdir_cons (c : string) (up : path) (fs : filesystem) :
  os_mkdir (c :: up) fs =
    match stat up fs with
    | None => (Raise FileNotFoundError, fs)
    | Some (File _) => (Raise NotADirectoryError, fs)
    | Some Directory =>
        match fs !! (c :: up) with
        | Some _ => (Raise FileExistsError, fs)
        | None => (Return tt, <[c :: up := Directory]> fs)
        end
    end.
Proof. done. Qed.

Lemma mkdir_succeeds (c : string) (up : path) (fs : filesystem) :
  stat up fs = Some Directory ->
  (forall data, fs !! (c :: up) <> Some (File data)) ->
  exists fs', mkdir true (c :: up) fs = (Return tt, fs').
Proof.
  intros Hup Hfile. unfold mkdir. rewrite os_mkdir_cons, Hup.
  destruct (fs !! (c :: up)) as [[|data]|] eqn:Ep.
  - exists fs. simpl. unfold is_dir. simpl. by rewrite Ep.
  - by destruct (Hfile data).
  - by eexists.
Qed.

Lemma mkdir_parents_unfold_found (exist_ok : bool) (c : string) (up : path)
    (fs : filesystem) :
  stat up fs <> None ->
  mkdir_parents exist_ok (c :: up) fs = mkdir exist_ok (c :: up) fs.
Proof.
  intros Hup. cbn [mkdir_parents]. rewrite os_mkdir_cons.
  destruct (stat up fs) as [[|?]|]; [|done..].
  by destruct (fs !! (c :: up)).
Qed.

Lemma mkdir_parents_unfold_missing (exist_ok : bool) (c : string) (up : path)
    (fs : filesystem) :
  stat up fs = None ->
  mkdir_parents exist_ok (c :: up) fs
  = (mkdir_parents true up ;; mkdir exist_ok (c :: up)) fs.
Proof. intros Hup. cbn [mkdir_parents]. by rewrite os_mkdir_cons, Hup. Qed.

(** [mkdir(parents=True, exist_ok=True)] goes through when no regular file
    stands where a directory is wanted. *)
Lemma mkdir_parents_succeeds (d : path) (fs : filesystem) :
  (forall q data, q `suffix_of` d -> fs !! q <> Some (File data)) ->
  exists fs', mkdir_parents true d fs = (Return tt, fs').
Proof.
  revert fs. induction d as [|c up IH]; intros fs Hfiles.
  - by exists fs.
  - destruct (stat up fs) as [[|data]|] eqn:Eup.
    + rewrite mkdir_parents_unfold_found by congruence.
      apply mkdir_succeeds; [done|]. intros data. by apply Hfiles.
    + destruct up as [|c' up']; [done|]. simpl in Eup.
      destruct (Hfiles (c' :: up') data); [by apply suffix_cons_r | done].
    + rewrite mkdir_parents_unfold_missing by done.
      destruct (IH fs) as [fs1 H1].
      { intros q data Hq. apply Hfiles. by apply suffix_cons_r. }
      unfold mbind, io_bind. rewrite H1.
      apply mkdir_succeeds.
      * apply is_dir_stat. by eapply mkdir_parents_returns_dir.
      * intros data. apply mkdir_parents_effect in H1 as [Hadd _].
        destruct (Hadd (c :: up)) as [->|(_ & _ & _ & Hsuf)].
        -- by apply Hfiles.
        -- by apply (not_suffix_of_parent c up) in Hsuf.
Qed.

Lemma directories_added_stat (d q : path) (fs fs' : filesystem) (x : node) :
  directories_added d fs fs' -> stat q fs = Some x -> stat q fs' = Some x.
Proof.
  intros Hadd. destruct q as [|c q]; [done|]. simpl.
  destruct (Hadd (c :: q)) as [->|(Hnone & _)]; [done | congruence].
Qed.

Lemma mkdir_return_cases (c : string) (up : path) (fs fs1 : filesystem) :
  mkdir true (c :: up) fs = (Return tt, fs1) ->
  fs1 = fs \/
  (stat up fs = Some Directory /\ fs1 = <[c :: up := Directory]> fs).
Proof.
  unfold mkdir. rewrite os_mkdir_cons.
  destruct (stat up fs) as [[|?]|]; [|simpl..].
  - destruct (fs !! (c :: up)); simpl.
    + destruct (is_dir (c :: up) fs); [intros [= <-]; by left | done].
    + intros [= <-]. by right.
  - destruct (is_dir (c :: up) fs); [intros [= <-]; by left | done].
  - done.
Qed.

Lemma mkdir_parents_present (c : string) (up : path) (fs : filesystem) :
  stat up fs = Some Directory -> fs !! (c :: up) = Some Directory ->
  mkdir_parents true (c :: up) fs = (Return tt, fs).
Proof.
  intros Hup Hp. rewrite mkdir_parents_unfold_found by congruence.
  unfold mkdir. rewrite os_mkdir_cons, Hup, Hp. simpl.
  unfold is_dir. simpl. by rewrite Hp.
Qed.

(** Creating the directories a second time changes nothing. *)
Lemma mkdir_parents_again (d : path) (fs fs1 : filesystem) :
  mkdir_parents true d fs = (Return tt, fs1) ->
  mkdir_parents true d fs1 = (Return tt, fs1).
Proof.
  destruct d as [|c up]; [by intros [= <-]|].
  intros Hrun.
  pose proof (mkdir_parents_returns_dir _ _ _ _ Hrun) as Hdir.
  apply is_dir_stat in Hdir. simpl in Hdir.
  destruct (stat up fs) as [x|] eqn:Eup.
  - rewrite mkdir_parents_unfold_found in Hrun by congruence.
    destruct (mkdir_return_cases _ _ _ _ Hrun) as [->|[Hup ->]].
    + by rewrite mkdir_parents_unfold_found by congruence.
    + apply mkdir_parents_present; [|done].
      rewrite stat_insert_ne; [done | apply cons_ne_tail].
  - rewrite mkdir_parents_unfold_missing in Hrun by done.
    unfold mbind, io_bind in Hrun.
    destruct (mkdir_parents true up fs) as [[[]|e] fsa] eqn:Ea; [|done].
    apply mkdir_parents_returns_dir, is_dir_stat in Ea.
    apply mkdir_effect in Hrun as [Hadd _].
    apply mkdir_parents_present; [|done].
    by apply (directories_added_stat _ _ _ _ _ Hadd).
Qed.

Lemma mkdir_insert_frame (exist_ok : bool) (c : string) (up p : path)
    (x : node) (fs fs1 : filesystem) (r : result unit) :
  p <> c :: up -> p <> up ->
  mkdir exist_ok (c :: up) fs = (r, fs1) ->
  mkdir exist_ok (c :: up) (<[p := x]> fs) = (r, <[p := x]> fs1).
Proof.
  intros Hp Hup. unfold mkdir. rewrite !os_mkdir_cons.
  rewrite stat_insert_ne, lookup_insert_ne by done.
  assert (is_dir (c :: up) (<[p := x]> fs) = is_dir (c :: up) fs) as Hdir
    by (unfold is_dir; by rewrite stat_insert_ne).
  destruct (stat up fs) as [[|?]|]; [|simpl..].
  - destruct (fs !! (c :: up)); simpl.
    + rewrite Hdir. by destruct (_ || _); intros [= <- <-].
    + intros [= <- <-]. by rewrite insert_insert_ne.
  - rewrite Hdir. by destruct (_ || _); intros [= <- <-].
  - by intros [= <- <-].
Qed.

(** Directory creation does not look at, and keeps, what lies at a path
    that is not at or above the directory. *)
Lemma mkdir_parents_insert_frame (exist_ok : bool) (d p : path) (x : node)
    (fs fs1 : filesystem) (r : result unit) :
  ~ p `suffix_of` d ->
  mkdir_parents exist_ok d fs = (r, fs1) ->
  mkdir_parents exist_ok d (<[p := x]> fs) = (r, <[p := x]> fs1).
Proof.
  revert exist_ok fs fs1 r.
  induction d as [|c up IH]; intros exist_ok fs fs1 r Hp.
  - change (mkdir_parents exist_ok [] ?s) with (mkdir exist_ok [] s).
    unfold mkdir. simpl. by destruct exist_ok; intros [= <- <-].
  - assert (p <> c :: up) as Hne by (intros ->; by apply Hp).
    assert (~ p `suffix_of` up) as Hup
      by (intros H; by apply Hp, suffix_cons_r).
    assert (p <> up) as Hne' by (intros ->; by apply Hup).
    destruct (stat up fs) as [y|] eqn:Eup.
    + rewrite !mkdir_parents_unfold_found
        by (rewrite ?stat_insert_ne by done; congruence).
      by apply mkdir_insert_frame.
    + rewrite !mkdir_parents_unfold_missing
        by (rewrite ?stat_insert_ne by done; congruence).
      unfold mbind, io_bind.
      destruct (mkdir_parents true up fs) as [[[]|e] fsa] eqn:Ea;
        rewrite (IH _ _ _ _ Hup Ea).
      * by apply mkdir_insert_frame.
      * by intros [= <- <-].
Qed.

(** ** [write_codeowners_file]: frame, failure, success, repetition *)

(** X9. Whatever the outcome, [write_codeowners_file] changes nothing
    beside the target: every other path holds what it held, or is one of
    the parent directories that [create_dirs] made.  Nothing is deleted and
    no other file is written. *)
Theorem write_codeowners_file_frame (f : CodeOwnersFile) (p : path)
    (create_dirs validate_size : bool) (fs fs' : filesystem)
    (r : result unit) :
  write_codeowners_file f p create_dirs validate_size fs = (r, fs') ->
  forall q : path, q <> p ->
    fs' !! q = fs !! q \/
    (create_dirs = true /\ fs !! q = None /\ fs' !! q = Some Directory /\
     q `suffix_of` parent p).
Proof.
  rewrite write_codeowners_file_steps. intros Hrun q Hq.
  destruct (if create_dirs then _ else _) as [r1 fs1] eqn:Edirs.
  assert (fs1 !! q = fs !! q \/
          (create_dirs = true /\ fs !! q = None /\
           fs1 !! q = Some Directory /\ q `suffix_of` parent p)) as H1.
  { apply create_dirs_effect in Edirs as (Hadd & Hsame & _).
    destruct create_dirs; [|left; by rewrite Hsame].
    destruct (Hadd q) as [?|(? & ? & _ & ?)]; [by left | by right]. }
  destruct r1 as [[]|e]; [|by injection Hrun as _ <-].
  destruct (write_codeowners f validate_size) as [content|e];
    [|by injection Hrun as _ <-].
  destruct (write_text p content fs1) as [r2 fs2] eqn:Et.
  apply (write_text_other p q) in Et; [|done].
  assert (fs' = fs2) as -> by (destruct r2; by injection Hrun as _ <-).
  by rewrite Et.
Qed.

Lemma write_codeowners_file_frame_witness :
  exists fs' : gmap (list string) node,
    write_codeowners_file sample_document nested_path true true old_filesystem
      = (Return tt, fs') /\
    fs' !! top_path = Some (File (py "old content")).
Proof.
  eexists. split; [reflexivity|].
  pose proof (fun fs' H =>
                write_codeowners_file_frame sample_document nested_path true
                  true old_filesystem fs' (Return tt) H top_path
                  ltac:(discriminate)) as Hframe.
  edestruct Hframe as [H|(_ & H & _)]; [reflexivity | |].
  - etrans; [exact H | reflexivity].
  - unfold old_filesystem in H. by rewrite lookup_singleton_eq in H.
Defined.

Lemma resolution_error_no_file (d : path) (fs : filesystem) :
  (forall q data, q `suffix_of` d -> stat q fs <> Some (File data)) ->
  resolution_error d fs = None \/
  resolution_error d fs = Some FileNotFoundError.
Proof.
  induction d as [|c up IH]; intros Hfiles; simpl; [by left|].
  destruct IH as [-> | ->]; [| |by right].
  { intros q data Hq. apply Hfiles. by apply suffix_cons_r. }
  destruct (fs !! (c :: up)) as [[|data]|] eqn:E; [by left| |by right].
  by destruct (Hfiles (c :: up) data).
Qed.

Lemma resolution_error_missing (d : path) (fs : filesystem) :
  (forall q data, q `suffix_of` d -> stat q fs <> Some (File data)) ->
  stat d fs = None ->
  resolution_error d fs = Some FileNotFoundError.
Proof.
  intros Hfiles Hd. destruct d as [|c up]; [done|].
  destruct (resolution_error_no_file (c :: up) fs Hfiles) as [H|H]; [|done].
  simpl in H, Hd. rewrite Hd in H.
  by destruct (resolution_error up fs).
Qed.

Lemma resolution_error_dirs (d : path) (fs : filesystem) :
  (forall q, q `suffix_of` d -> stat q fs = Some Directory) ->
  resolution_error d fs = None.
Proof.
  induction d as [|c up IH]; intros Hdirs; simpl; [done|].
  rewrite IH by (intros q Hq; by apply Hdirs, suffix_cons_r).
  specialize (Hdirs (c :: up) ltac:(done)). simpl in Hdirs.
  by rewrite Hdirs.
Qed.

(** In a tree, everything above an existing path is a directory. *)
Lemma well_formed_above (fs : filesystem) (u : path) (x : node) :
  well_formed fs -> stat u fs = Some x ->
  forall q, q `suffix_of` u -> q <> u -> stat q fs = Some Directory.
Proof.
  intros Hwf. revert x. induction u as [|c u IH]; intros x Hu q Hq Hne.
  - apply suffix_nil_inv in Hq. done.
  - destruct q as [|a q]; [done|].
    apply suffix_cons_inv in Hq as [Heq|Hq]; [by destruct Hne|].
    assert (stat u fs = Some Directory) as Hdir
      by (apply (Hwf c); simpl in Hu; by rewrite Hu).
    destruct (decide (a :: q = u)) as [<-|Hne']; [done|].
    by apply (IH Directory).
Qed.

Lemma resolution_error_file (fs : filesystem) (q d : path) (data : bytes) :
  well_formed fs -> stat q fs = Some (File data) -> q `suffix_of` d ->
  resolution_error d fs = Some NotADirectoryError.
Proof.
  intros Hwf Hq [k ->].
  assert (resolution_error q fs = Some NotADirectoryError) as Hres.
  { destruct q as [|c u]; [done|]. simpl.
    rewrite resolution_error_dirs.
    - simpl in Hq. by rewrite Hq.
    - intros q' Hq'. apply (well_formed_above fs (c :: u) (File data)); try done.
      + by apply suffix_cons_r.
      + intros ->. by apply (not_suffix_of_parent c u). }
  induction k as [|a k IH]; [done|]. simpl. by rewrite IH.
Qed.

Lemma no_directory_below_file (fs : filesystem) (q d : path) (data : bytes) :
  well_formed fs -> stat q fs = Some (File data) -> q `suffix_of` d ->
  stat d fs <> Some Directory.
Proof.
  intros Hwf Hq Hsuf Hd. destruct (decide (q = d)) as [->|Hne]; [congruence|].
  pose proof (well_formed_above fs d Directory Hwf Hd q Hsuf Hne). congruence.
Qed.

(** X10. Without [create_dirs], on a filesystem that is a tree and for a
    document that [write_codeowners] accepts: a path whose parent directory
    is missing, with no regular file above it, gives [FileNotFoundError]; a
    regular file at or above the parent gives [NotADirectoryError]; a
    target that is itself a directory gives [IsADirectoryError].  In each
    case the filesystem is left as it was. *)
Theorem no_create_dirs_os_errors (f : CodeOwnersFile) (p : path)
    (validate_size : bool) (fs : filesystem) (content : str) :
  well_formed fs ->
  write_codeowners f validate_size = Return content ->
  (stat (parent p) fs = None ->
   (forall q data, q `suffix_of` parent p -> stat q fs <> Some (File data)) ->
   write_codeowners_file f p false validate_size fs
   = (Raise FileNotFoundError, fs)) /\
  (forall q data,
     q `suffix_of` parent p -> stat q fs = Some (File data) ->
     write_codeowners_file f p false validate_size fs
     = (Raise NotADirectoryError, fs)) /\
  (stat (parent p) fs = Some Directory -> stat p fs = Some Directory ->
   write_codeowners_file f p false validate_size fs
   = (Raise IsADirectoryError, fs)).
Proof.
  intros Hwf Hw. rewrite write_codeowners_file_steps, Hw.
  destruct p as [|c d]; [split; [done|]; split; [|done]|].
  { intros q data Hq%suffix_nil_inv Hfile. by subst q. }
  change (parent (c :: d)) with d. unfold write_text.
  change (parent (c :: d)) with d.
  split; [|split].
  - intros Hd Hfiles. rewrite Hd. unfold open_error.
    by rewrite resolution_error_missing.
  - intros q data Hq Hfile.
    pose proof (no_directory_below_file fs q d data Hwf Hfile Hq) as Hnd.
    unfold open_error.
    rewrite (resolution_error_file fs q d data) by done.
    by destruct (stat d fs) as [[|?]|].
  - intros -> Hp. simpl in Hp. by rewrite Hp.
Qed.

Lemma well_formed_empty : well_formed ∅.
Proof. intros c d [x Hx]. by rewrite lookup_empty in Hx. Qed.

Lemma well_formed_file_in_the_way : well_formed file_in_the_way.
Proof.
  intros c d [x Hx]. unfold file_in_the_way in Hx.
  apply lookup_singleton_Some in Hx as [[= _ <-] _]. done.
Qed.

Lemma no_create_dirs_os_errors_witness :
  write_codeowners_file sample_document nested_path false true ∅
    = (Raise FileNotFoundError, ∅) /\
  write_codeowners_file sample_document path_below_file false true
    file_in_the_way
    = (Raise NotADirectoryError, file_in_the_way).
Proof.
  split.
  - apply (no_create_dirs_os_errors sample_document nested_path true ∅
             (content_of sample_document));
      [apply well_formed_empty | reflexivity | reflexivity |].
    intros q data _. destruct q; [done|]. simpl. by rewrite lookup_empty.
  - apply (no_create_dirs_os_errors sample_document path_below_file true
             file_in_the_way (content_of sample_document)
             well_formed_file_in_the_way eq_refl)
      with (q := ["f"%string]) (data := []).
    + by exists ["a"%string].
    + reflexivity.
Defined.



(** X12. Writing the same document to the same path once more, after a
    call that returned normally, returns normally again and leaves the
    filesystem exactly as the first call left it. *)
Theorem write_codeowners_file_idempotent (f : CodeOwnersFile) (p : path)
    (create_dirs validate_size : bool) (fs fs' : filesystem) :
  write_codeowners_file f p create_dirs validate_size fs = (Return tt, fs') ->
  write_codeowners_file f p create_dirs validate_size fs' = (Return tt, fs').
Proof.
  rewrite !write_codeowners_file_steps.
  destruct (if create_dirs then mkdir_parents true (parent p) fs
            else (Return tt, fs)) as [[[]|e] fs1] eqn:Edirs; [|done].
  destruct (write_codeowners f validate_size) as [content|e]; [|done].
  destruct (write_text p content fs1) as [[n|e] fs2] eqn:Et; [|done].
  intros [= ->].
  apply write_text_returns in Et
    as (c & d & encoded & -> & Hd & Hp & Henc & ->).
  change (parent (c :: d)) with d in *.
  assert ((if create_dirs
           then mkdir_parents true d (<[c :: d := File encoded]> fs1)
           else (Return tt, <[c :: d := File encoded]> fs1))
          = (Return tt, <[c :: d := File encoded]> fs1)) as ->.
  { destruct create_dirs; [|done].
    change (mkdir_parents true d fs = (Return tt, fs1)) in Edirs.
    apply mkdir_parents_insert_frame; [apply not_suffix_of_parent|].
    by apply (mkdir_parents_again d fs fs1). }
  rewrite (write_text_succeeds c d content encoded).
  - by rewrite insert_insert_eq.
  - by rewrite stat_insert_ne by apply cons_ne_tail.
  - by rewrite lookup_insert_eq.
  - done.
Qed.

Lemma write_codeowners_file_idempotent_witness :
  exists fs' : gmap (list string) node,
    write_codeowners_file sample_document nested_path true true ∅
      = (Return tt, fs') /\
    write_codeowners_file sample_document nested_path true true fs'
      = (Return tt, fs').
Proof.
  eexists. split; [reflexivity|].
  apply (write_codeowners_file_idempotent _ _ _ _ ∅). reflexivity.
Defined.

Lemma write_text_unencodable (c : string) (d : path) (data : str)
    (fs : filesystem) :
  stat d fs = Some Directory -> fs !! (c :: d) <> Some Directory ->
  encode_utf8 data = None ->
  write_text (c :: d) data fs
  = (Raise UnicodeEncodeError, <[c :: d := File []]> fs).
Proof.
  intros Hd Hp He. unfold write_text. change (parent (c :: d)) with d.
  rewrite Hd, He. by destruct (fs !! (c :: d)) as [[|?]|].
Qed.

(** The directory step of [write_codeowners_file] goes through, and keeps
    the target, when the parent is a directory below directories. *)
Lemma create_dirs_step_present (create_dirs : bool) (c : string) (d : path)
    (fs : filesystem) :
  stat d fs = Some Directory ->
  (forall q data, q `suffix_of` d -> fs !! q <> Some (File data)) ->
  exists fs1,
    (if create_dirs then mkdir_parents true (parent (c :: d)) fs
     else (Return tt, fs)) = (Return tt, fs1) /\
    stat d fs1 = Some Directory /\ fs1 !! (c :: d) = fs !! (c :: d).
Proof.
  intros Hd Hfiles. destruct create_dirs; [|by exists fs].
  change (parent (c :: d)) with d.
  destruct (mkdir_parents_succeeds d fs Hfiles) as [fs1 H1].
  exists fs1. split; [done|].
  apply mkdir_parents_effect in H1 as [Hadd _]. split.
  - by apply (directories_added_stat _ _ _ _ _ Hadd).
  - by apply (directories_added_target (c :: d)).
Qed.

(** X13. A text with a lone surrogate and an existing target file: without
    validation the call raises [UnicodeEncodeError] after the file has been
    opened for writing, so the file is left empty and its old content is
    lost; with validation the same error is raised before the file is
    touched, and the old content stays. *)
Theorem unencodable_text_truncates (f : CodeOwnersFile) (c : string)
    (d : path) (create_dirs : bool) (old : bytes) (fs : filesystem) :
  has_surrogate (content_of f) = true ->
  stat d fs = Some Directory ->
  (forall q data, q `suffix_of` d -> fs !! q <> Some (File data)) ->
  fs !! (c :: d) = Some (File old) ->
  (exists fs',
     write_codeowners_file f (c :: d) create_dirs false fs
       = (Raise UnicodeEncodeError, fs') /\
     fs' !! (c :: d) = Some (File [])) /\
  (exists fs',
     write_codeowners_file f (c :: d) create_dirs true fs
       = (Raise UnicodeEncodeError, fs') /\
     fs' !! (c :: d) = Some (File old)).
Proof.
  intros Hs Hd Hfiles Hold.
  destruct (create_dirs_step_present create_dirs c d fs Hd Hfiles)
    as (fs1 & Hdirs & Hd1 & Hp1).
  rewrite !write_codeowners_file_steps, Hdirs. split.
  - rewrite write_codeowners_unvalidated.
    rewrite write_text_unencodable;
      [|done|by rewrite Hp1, Hold|by apply encode_utf8_none].
    eexists. split; [done|]. by rewrite lookup_insert_eq.
  - assert (write_codeowners f true = Raise UnicodeEncodeError) as ->.
    { rewrite write_codeowners_validated. unfold byte_length.
      apply encode_utf8_none in Hs. by rewrite Hs. }
    exists fs1. split; [done|]. by rewrite Hp1.
Qed.

Lemma unencodable_text_truncates_witness :
  (exists fs' : gmap (list string) node,
     write_codeowners_file surrogate_document top_path true false
       old_filesystem = (Raise UnicodeEncodeError, fs') /\
     fs' !! top_path = Some (File [])) /\
  (exists fs' : gmap (list string) node,
     write_codeowners_file surrogate_document top_path true true
       old_filesystem = (Raise UnicodeEncodeError, fs') /\
     fs' !! top_path = Some (File (py "old content"))).
Proof.
  apply (unencodable_text_truncates surrogate_document "CODEOWNERS" [] true
           (py "old content") old_filesystem).
  - reflexivity.
  - reflexivity.
  - intros q data Hq. apply suffix_nil_inv in Hq as ->.
    unfold old_filesystem. by rewrite lookup_singleton_ne.
  - unfold old_filesystem, top_path. by rewrite lookup_singleton_eq.
Defined.

(** X14. With validation, a file written by a call that returned normally
    is never longer than 3,145,728 bytes, and its parent directory
    exists. *)
Theorem validated_file_within_limit (f : CodeOwnersFile) (p : path)
    (create_dirs : bool) (fs fs' : filesystem) :
  write_codeowners_file f p create_dirs true fs = (Return tt, fs') ->
  exists data,
    fs' !! p = Some (File data) /\ len data <= 3145728 /\
    is_dir (parent p) fs' = true.
Proof.
  rewrite write_codeowners_file_steps.
  destruct (if create_dirs then _ else _) as [[[]|e] fs1]; [|done].
  rewrite write_codeowners_validated.
  destruct (byte_length (content_of f)) as [n|] eqn:En; [|done].
  destruct (N.ltb_spec MAX_FILE_SIZE_BYTES n) as [|Hle]; [done|].
  destruct (write_text p (content_of f) fs1) as [[k|e] fs2] eqn:Et; [|done].
  intros [= <-].
  apply write_text_returns in Et
    as (c & d & encoded & -> & Hd & Hp & Henc & ->).
  exists encoded. split; [by rewrite lookup_insert_eq|].
  unfold byte_length in En. rewrite Henc in En. injection En as <-.
  split; [exact Hle|].
  apply is_dir_stat. change (parent (c :: d)) with d.
  by rewrite stat_insert_ne by apply cons_ne_tail.
Qed.

Lemma validated_file_within_limit_witness :
  exists (fs' : gmap (list string) node) (data : list N),
    write_codeowners_file sample_document nested_path true true ∅
      = (Return tt, fs') /\
    fs' !! nested_path = Some (File data) /\ len data <= 3145728 /\
    is_dir (parent nested_path) fs' = true.
Proof.
  edestruct (validated_file_within_limit sample_document nested_path true ∅)
    as (data & H); [reflexivity|].
  eexists _, data. split; [reflexivity | exact H].
Defined.

(** X15. Adding one entry to a non-empty document adds one separator and
    the encoded size of the entry's line to the encoded size of the text:
    the size that the check compares with the limit grows by exactly that
    much. *)
Theorem appended_entry_size (es : list CodeOwnersEntry) (e : CodeOwnersEntry)
    (n m : N) :
  es <> [] ->
  byte_length (content_of (document es)) = Some n ->
  byte_length (format_entry e) = Some m ->
  byte_length (content_of (document (es ++ [e]))) = Some (n + 1 + m).
Proof.
  intros Hes Hn Hm. rewrite content_of_app by done.
  rewrite !byte_length_app, Hn.
  change (content_of (document [e])) with (format_entry e).
  rewrite Hm. change (byte_length [NEWLINE]) with (Some 1).
  f_equal. lia.
Qed.

Lemma appended_entry_size_witness :
  byte_length
    (content_of
       (document ([entry_comment (py "Python files")]
                  ++ [entry_rule (py "*.py") [owner "@python-team"] None])))
  = Some (14 + 1 + 17).
Proof. apply appended_entry_size; [discriminate | reflexivity..]. Defined.

(** ** What [format_entry] does not do *)

(** X16. [format_entry] neither quotes nor rejects a space inside a
    pattern: for a non-empty [P], the rule whose pattern is [P], a space
    and [O] is formatted exactly like the rule whose pattern is [P] and
    whose first owner is [O], so the written line does not tell where the
    pattern ends. *)
Theorem format_entry_no_quoting (pat o : str) (os : list CodeOwner)
    (cm : option str) :
  pat <> [] ->
  format_entry (entry_rule (pat ++ [SPACE] ++ o) os cm)
  = format_entry (entry_rule pat ({| name := o |} :: os) cm).
Proof.
  intros Hpat. destruct pat as [|c pat]; [done|].
  change ((c :: pat) ++ [SPACE] ++ o) with (c :: (pat ++ [SPACE] ++ o)).
  rewrite !format_entry_rule_nonempty. simpl map.
  change (owner_str {| name := o |}) with o.
  set (rest := map owner_str os ++ _).
  change ((c :: pat) :: (o :: map owner_str os) ++ _)
    with ((c :: pat) :: o :: rest).
  rewrite (join_cons [SPACE] (c :: pat) o rest).
  destruct rest as [|x rest]; [done|].
  rewrite !join_cons.
  change (c :: pat ++ [SPACE] ++ o) with ((c :: pat) ++ [SPACE] ++ o).
  by rewrite <- !app_assoc.
Qed.

Lemma format_entry_no_quoting_witness :
  format_entry (entry_rule (py "docs" ++ [SPACE] ++ py "@a") [] None)
  = format_entry (entry_rule (py "docs") [{| name := py "@a" |}] None).
Proof. apply format_entry_no_quoting. discriminate. Defined.
